(** * The kfree_skb drop probe of src/bpf/monitor.c

    A shallow embedding of the eBPF program [trace_tcp_drop], of the
    record [struct event] it writes and of the ring buffer map [events] it
    writes to.

    The probe is a straight-line program over four kernel services: the
    helpers [bpf_ringbuf_reserve], [bpf_get_current_pid_tgid] and
    [bpf_ringbuf_submit], and stores through the pointer that the first
    one returns.  It is embedded as a finite tree of such operations
    ([prog]), so that what the probe asks of the kernel can be read off for
    every possible behaviour of the kernel ([run]).  It is then run against
    a model of the kernel's ring buffer ([kernel], [kernel_handle]), one
    firing after the other ([fire]) and, since the tracepoint fires on
    every CPU, as several runs whose operations interleave with each other
    and with the polls of the consumer ([sys_step]). *)

From Stdlib Require Import ZArith List Bool Lia String Sorted.
From Stdlib Require Import Strings.Byte.
From ExtLib Require Import Structures.Monad.
Import ListNotations MonadNotation.
Open Scope list_scope.
Open Scope Z_scope.
Open Scope monad_scope.

(** ** Machine integers *)

Module CInt.

(** The value of [z] in an unsigned integer type of [w] bits. *)
Definition wrap (w z : Z) : Z := z mod 2 ^ w.

Definition u32 (z : Z) : Z := wrap 32 z.
Definition u64 (z : Z) : Z := wrap 64 z.

Definition is_u32 (z : Z) : Prop := 0 <= z < 2 ^ 32.
Definition is_u64 (z : Z) : Prop := 0 <= z < 2 ^ 64.

End CInt.
Import CInt.

(** ** Bytes and byte order *)

Inductive endianness : Set := LittleEndian | BigEndian.

Definition byte_of_Z (z : Z) : byte :=
  match Byte.of_N (Z.to_N (z mod 256)) with
  | Some b => b
  | None => x00
  end.

Definition Z_of_byte (b : byte) : Z := Z.of_N (Byte.to_N b).

(** The [n] low-order bytes of [v], least significant first. *)
Fixpoint le_bytes (n : nat) (v : Z) : list byte :=
  match n with
  | O => []
  | S n' => byte_of_Z v :: le_bytes n' (Z.shiftr v 8)
  end.

Fixpoint le_value (bs : list byte) : Z :=
  match bs with
  | [] => 0
  | b :: bs' => Z_of_byte b + Z.shiftl (le_value bs') 8
  end.

(** An [n]-byte unsigned integer as it lies in memory. *)
Definition int_bytes (bo : endianness) (n : nat) (v : Z) : list byte :=
  match bo with
  | LittleEndian => le_bytes n v
  | BigEndian => rev (le_bytes n v)
  end.

Definition int_value (bo : endianness) (bs : list byte) : Z :=
  match bo with
  | LittleEndian => le_value bs
  | BigEndian => le_value (rev bs)
  end.

(** [n] bytes of [mem] from offset [off]. *)
Definition mem_slice (off : Z) (n : nat) (mem : list byte) : list byte :=
  firstn n (skipn (Z.to_nat off) mem).

(** [mem] with [bs] written at offset [off]; a write that does not fit
    leaves [mem] as it is. *)
Definition mem_write (off : Z) (bs mem : list byte) : list byte :=
  if (0 <=? off)
     && (off + Z.of_nat (List.length bs) <=? Z.of_nat (List.length mem))
  then firstn (Z.to_nat off) mem ++ bs
         ++ skipn (Z.to_nat off + List.length bs) mem
  else mem.

(** ** C types and the layout of a struct *)

Inductive ctype : Set := U8 | U16 | U32 | U64.

Definition sizeof (t : ctype) : Z :=
  match t with U8 => 1 | U16 => 2 | U32 => 4 | U64 => 8 end.

(** Scalars are naturally aligned on the BPF target. *)
Definition alignof (t : ctype) : Z := sizeof t.

Definition round_up (x a : Z) : Z := (x + a - 1) / a * a.

Record member : Set := Member { m_name : string; m_type : ctype }.

(** Members are placed in declaration order, each at the first offset at or
    after the end of the previous one that its alignment allows. *)
Fixpoint place (off : Z) (ms : list member) : list (member * Z) :=
  match ms with
  | [] => []
  | m :: ms' =>
      let o := round_up off (alignof (m_type m)) in
      (m, o) :: place (o + sizeof (m_type m)) ms'
  end.

Definition struct_align (ms : list member) : Z :=
  fold_right (fun m a => Z.max (alignof (m_type m)) a) 1 ms.

Definition struct_end (ms : list member) : Z :=
  fold_left (fun _ p => snd p + sizeof (m_type (fst p))) (place 0 ms) 0.

Definition struct_sizeof (ms : list member) : Z :=
  round_up (struct_end ms) (struct_align ms).

Definition offsetof (ms : list member) (name : string) : option Z :=
  option_map snd
    (find (fun p => String.eqb (m_name (fst p)) name) (place 0 ms)).

(** Bytes of the struct that belong to no member. *)
Definition struct_padding (ms : list member) : Z :=
  struct_sizeof ms - fold_right (fun m a => sizeof (m_type m) + a) 0 ms.

(** ** [struct event] *)

Module event.

(** [struct event { u32 pid; u32 reason; };] *)
Definition members : list member :=
  [Member "pid" U32; Member "reason" U32].

Record t : Set := Build { pid : Z; reason : Z }.

Definition size : Z := struct_sizeof members.

Definition pid_offset : Z :=
  match offsetof members "pid" with Some o => o | None => 0 end.

Definition reason_offset : Z :=
  match offsetof members "reason" with Some o => o | None => 0 end.

(** Both members hold values of their type. *)
Definition valid (e : t) : Prop := is_u32 (pid e) /\ is_u32 (reason e).

(** The memory of a [struct event] after both members are assigned. *)
Definition assign (bo : endianness) (e : t) (mem : list byte) : list byte :=
  mem_write reason_offset (int_bytes bo 4 (reason e))
    (mem_write pid_offset (int_bytes bo 4 (pid e)) mem).

(** The memory of a [struct event] that holds [e]. *)
Definition image (bo : endianness) (e : t) : list byte :=
  assign bo e (repeat x00 (Z.to_nat size)).

(** The [struct event] read from memory, member by member. *)
Definition read (bo : endianness) (mem : list byte) : t :=
  {| pid := int_value bo (mem_slice pid_offset 4 mem);
     reason := int_value bo (mem_slice reason_offset 4 mem) |}.

End event.

(** The size of [struct event], which the probe passes to the reservation. *)
Definition sizeof_event : Z := event.size.

(** ** The map [events]

    [struct { __uint(type, BPF_MAP_TYPE_RINGBUF);
              __uint(max_entries, 1 << 16); } events SEC(".maps");] *)

Inductive bpf_map_type : Set :=
| BPF_MAP_TYPE_HASH
| BPF_MAP_TYPE_ARRAY
| BPF_MAP_TYPE_PERF_EVENT_ARRAY
| BPF_MAP_TYPE_RINGBUF.

Record bpf_map_def : Set :=
  { map_type : bpf_map_type;
    max_entries : Z }.

Definition events : bpf_map_def :=
  {| map_type := BPF_MAP_TYPE_RINGBUF;
     max_entries := Z.shiftl 1 16 |}.

Definition is_power_of_2 (n : Z) : bool :=
  (0 <? n) && (Z.land n (n - 1) =? 0).

(** ** The tracepoint context

    [struct trace_event_raw_kfree_skb] comes from vmlinux.h, which is
    generated from the running kernel.  The probe reads one member of it,
    [reason], an [enum skb_drop_reason]: an unsigned 32-bit value. *)

Module trace_event_raw_kfree_skb.

Record t : Set := Build { reason : Z }.

Definition valid (ctx : t) : Prop := is_u32 (reason ctx).

End trace_event_raw_kfree_skb.

(** ** Programs over the kernel's services *)

Definition ptr : Set := Z.

(** What a BPF program can ask of the kernel, with the type of the answer:
    the ring buffer helpers, the current task's identifier, and a store of
    an integer of type [t] at an address.  A failed reservation answers
    [None], the C side's NULL. *)
Inductive op : Type -> Type :=
| bpf_ringbuf_reserve (ringbuf : bpf_map_def) (size flags : Z) : op (option ptr)
| bpf_ringbuf_submit (data : ptr) (flags : Z) : op unit
| bpf_ringbuf_discard (data : ptr) (flags : Z) : op unit
| bpf_get_current_pid_tgid : op Z
| store (t : ctype) (addr : ptr) (v : Z) : op unit.

Inductive prog (A : Type) : Type :=
| Ret (a : A)
| Call {X : Type} (o : op X) (k : X -> prog A).

Arguments Ret {A} a.
Arguments Call {A X} o k.

Fixpoint prog_bind {A B : Type} (p : prog A) (f : A -> prog B) : prog B :=
  match p with
  | Ret a => f a
  | Call o k => Call o (fun x => prog_bind (k x) f)
  end.

#[global] Instance Monad_prog : Monad prog :=
  {| ret := @Ret; bind := @prog_bind |}.

Definition call {X : Type} (o : op X) : prog X := Call o Ret.

(** One operation and the answer it got. *)
Inductive call_record : Set :=
| reserved (ringbuf : bpf_map_def) (size flags : Z) (answer : option ptr)
| submitted (data : ptr) (flags : Z)
| discarded (data : ptr) (flags : Z)
| pid_tgid_read (answer : Z)
| stored (t : ctype) (addr : ptr) (v : Z).

Definition record_of {X : Type} (o : op X) : X -> call_record :=
  match o in op X return X -> call_record with
  | bpf_ringbuf_reserve m size flags => fun a => reserved m size flags a
  | bpf_ringbuf_submit d f => fun _ => submitted d f
  | bpf_ringbuf_discard d f => fun _ => discarded d f
  | bpf_get_current_pid_tgid => fun a => pid_tgid_read a
  | store t addr v => fun _ => stored t addr v
  end.

Section Run.

Context {S : Type}.

(** How the environment answers each operation from its state. *)
Variable handle : forall X : Type, op X -> S -> X * S.

(** The result of a program, the final state, and the operations it
    performed, in order. *)
Fixpoint run {A : Type} (p : prog A) (s : S) : A * S * list call_record :=
  match p with
  | Ret a => (a, s, [])
  | Call o k =>
      let (x, s1) := handle _ o s in
      let '(a, s2, log) := run (k x) s1 in
      (a, s2, record_of o x :: log)
  end.

Definition result {A : Type} (p : prog A) (s : S) : A := fst (fst (run p s)).
Definition final {A : Type} (p : prog A) (s : S) : S := snd (fst (run p s)).
Definition calls {A : Type} (p : prog A) (s : S) : list call_record :=
  snd (run p s).

(** The states the environment goes through while the program runs: the
    initial one, then one after each operation. *)
Fixpoint states {A : Type} (p : prog A) (s : S) : list S :=
  match p with
  | Ret _ => [s]
  | Call o k => let (x, s1) := handle _ o s in s :: states (k x) s1
  end.

End Run.

(** ** The probe

    [SEC("tracepoint/skb/kfree_skb")
     int trace_tcp_drop(struct trace_event_raw_kfree_skb *ctx)] *)

Definition trace_tcp_drop (ctx : trace_event_raw_kfree_skb.t) : prog Z :=
  if trace_event_raw_kfree_skb.reason ctx <=? 1 then ret 0 else
  e <- call (bpf_ringbuf_reserve events sizeof_event 0) ;;
  match e with
  | None => ret 0
  | Some e =>
      pid_tgid <- call bpf_get_current_pid_tgid ;;
      call (store U32 (e + event.pid_offset) (u32 (Z.shiftr pid_tgid 32))) ;;
      call (store U32 (e + event.reason_offset)
              (u32 (trace_event_raw_kfree_skb.reason ctx))) ;;
      call (bpf_ringbuf_submit e 0) ;;
      ret 0
  end.

(** ** The kernel side: the BPF ring buffer

    The helpers are the kernel's, not this program's.  They are modelled
    after their documented contract: a reservation claims the next
    [round_up (size + 8) 8] bytes of a byte stream of bounded length and
    marks the record busy; submit and discard clear the busy mark; the
    consumer takes records in the order of reservation and stops at the
    first busy one.  The memory of a fresh record is not cleared. *)

Definition BPF_RINGBUF_HDR_SZ : Z := 8.
Definition RINGBUF_MAX_RECORD_SZ : Z := (2 ^ 32 - 1) / 4.
Definition PAGE_SIZE : Z := 4096.

Record rb_record : Set :=
  { rec_pos : Z;            (* producer position at reservation *)
    rec_busy : bool;
    rec_discard : bool;
    rec_data : list byte }.

Record ringbuf : Set :=
  { rb_size : Z;
    consumer_pos : Z;
    producer_pos : Z;
    records : list rb_record }.

(** Creation of the ring buffer of a map definition, refused unless the
    size is a power of two and a multiple of the page size. *)
Definition ringbuf_map_alloc (def : bpf_map_def) : option ringbuf :=
  match map_type def with
  | BPF_MAP_TYPE_RINGBUF =>
      if is_power_of_2 (max_entries def)
         && (max_entries def mod PAGE_SIZE =? 0)
      then Some {| rb_size := max_entries def;
                   consumer_pos := 0;
                   producer_pos := 0;
                   records := [] |}
      else None
  | _ => None
  end.

(** The address of the payload of a record. *)
Definition rec_ptr (r : rb_record) : ptr := rec_pos r + BPF_RINGBUF_HDR_SZ.

Definition rec_len (r : rb_record) : Z := Z.of_nat (List.length (rec_data r)).

Definition ringbuf_reserve (fresh : Z -> byte) (rb : ringbuf) (size flags : Z)
  : option ptr * ringbuf :=
  let len := round_up (size + BPF_RINGBUF_HDR_SZ) 8 in
  let new_prod_pos := producer_pos rb + len in
  if negb (flags =? 0)
     || (size <? 0) || (RINGBUF_MAX_RECORD_SZ <? size)
     || (rb_size rb <? len)
     || (rb_size rb - 1 <? new_prod_pos - consumer_pos rb)
  then (None, rb)
  else
    let data := producer_pos rb + BPF_RINGBUF_HDR_SZ in
    (Some data,
     {| rb_size := rb_size rb;
        consumer_pos := consumer_pos rb;
        producer_pos := new_prod_pos;
        records := records rb ++
          [{| rec_pos := producer_pos rb;
              rec_busy := true;
              rec_discard := false;
              rec_data := map (fun i => fresh (data + Z.of_nat i))
                              (seq 0 (Z.to_nat size)) |}] |}).

(** The busy record, if any, whose payload contains [n] bytes at [addr]. *)
Definition holds (r : rb_record) (addr n : Z) : bool :=
  rec_busy r && (rec_ptr r <=? addr) && (addr + n <=? rec_ptr r + rec_len r).

Fixpoint store_records (addr : ptr) (bs : list byte) (rs : list rb_record)
  : option (list rb_record) :=
  match rs with
  | [] => None
  | r :: rs' =>
      if holds r addr (Z.of_nat (List.length bs))
      then Some ({| rec_pos := rec_pos r;
                    rec_busy := rec_busy r;
                    rec_discard := rec_discard r;
                    rec_data := mem_write (addr - rec_ptr r) bs (rec_data r) |}
                 :: rs')
      else option_map (cons r) (store_records addr bs rs')
  end.

(** Submit ([discard = false]) or discard of the busy record at [data]. *)
Fixpoint commit_records (data : ptr) (discard : bool) (rs : list rb_record)
  : option (list rb_record) :=
  match rs with
  | [] => None
  | r :: rs' =>
      if rec_busy r && (rec_ptr r =? data)
      then Some ({| rec_pos := rec_pos r;
                    rec_busy := false;
                    rec_discard := discard;
                    rec_data := rec_data r |} :: rs')
      else option_map (cons r) (commit_records data discard rs')
  end.

Definition with_records (rb : ringbuf) (rs : list rb_record) : ringbuf :=
  {| rb_size := rb_size rb;
     consumer_pos := consumer_pos rb;
     producer_pos := producer_pos rb;
     records := rs |}.

(** The consumer's side: the records up to the first busy one. *)
Fixpoint take_ready (rs : list rb_record) : list rb_record * list rb_record :=
  match rs with
  | [] => ([], [])
  | r :: rs' =>
      if rec_busy r then ([], rs)
      else let (ready, rest) := take_ready rs' in (r :: ready, rest)
  end.

Definition samples (rs : list rb_record) : list (list byte) :=
  map rec_data (filter (fun r => negb (rec_discard r)) rs).

(** One pass of the consumer: the payloads it is handed, in order, and the
    ring buffer it leaves. *)
Definition ringbuf_consume (rb : ringbuf) : list (list byte) * ringbuf :=
  let (ready, rest) := take_ready (records rb) in
  (samples ready,
   {| rb_size := rb_size rb;
      consumer_pos := match rest with
                      | r :: _ => rec_pos r
                      | [] => producer_pos rb
                      end;
      producer_pos := producer_pos rb;
      records := rest |}).

(** What the consumer would be handed now. *)
Definition visible (rb : ringbuf) : list (list byte) := fst (ringbuf_consume rb).

Record kernel : Type :=
  { byte_order : endianness;        (* of the machine *)
    current_pid_tgid : Z;           (* tgid << 32 | pid of the current task *)
    fresh : Z -> byte;              (* content of memory not yet written *)
    events_rb : ringbuf;            (* the ring buffer of the map events *)
    faulted : bool }.               (* an access outside a reservation *)

Definition with_rb (k : kernel) (rb : ringbuf) : kernel :=
  {| byte_order := byte_order k;
     current_pid_tgid := current_pid_tgid k;
     fresh := fresh k;
     events_rb := rb;
     faulted := faulted k |}.

Definition fault (k : kernel) : kernel :=
  {| byte_order := byte_order k;
     current_pid_tgid := current_pid_tgid k;
     fresh := fresh k;
     events_rb := events_rb k;
     faulted := true |}.

Definition on_task (pid_tgid : Z) (k : kernel) : kernel :=
  {| byte_order := byte_order k;
     current_pid_tgid := pid_tgid;
     fresh := fresh k;
     events_rb := events_rb k;
     faulted := faulted k |}.

(** How the kernel answers.  There is one map, [events], so a reservation
    is on its ring buffer; a store or a submit that is not within a busy
    record is recorded as a fault.  The flags of submit and discard steer
    the wake-up of the consumer only, which is not modelled. *)
Definition kernel_handle (X : Type) (o : op X) (k : kernel) : X * kernel :=
  match o in op X return X * kernel with
  | bpf_ringbuf_reserve _ size flags =>
      let (e, rb) := ringbuf_reserve (fresh k) (events_rb k) size flags in
      (e, with_rb k rb)
  | bpf_ringbuf_submit data _ =>
      match commit_records data false (records (events_rb k)) with
      | Some rs => (tt, with_rb k (with_records (events_rb k) rs))
      | None => (tt, fault k)
      end
  | bpf_ringbuf_discard data _ =>
      match commit_records data true (records (events_rb k)) with
      | Some rs => (tt, with_rb k (with_records (events_rb k) rs))
      | None => (tt, fault k)
      end
  | bpf_get_current_pid_tgid => (u64 (current_pid_tgid k), k)
  | store t addr v =>
      match store_records addr
              (int_bytes (byte_order k) (Z.to_nat (sizeof t)) v)
              (records (events_rb k)) with
      | Some rs => (tt, with_rb k (with_records (events_rb k) rs))
      | None => (tt, fault k)
      end
  end.

(** The kernel when the probe has just been loaded and attached. *)
Definition attach (bo : endianness) (task : Z) (mem : Z -> byte)
  : option kernel :=
  match ringbuf_map_alloc events with
  | Some rb => Some {| byte_order := bo;
                       current_pid_tgid := task;
                       fresh := mem;
                       events_rb := rb;
                       faulted := false |}
  | None => None
  end.

(** One firing of the tracepoint: the probe runs on [ctx] in the context of
    the task [pid_tgid]. *)
Record firing : Set :=
  { on_ctx : trace_event_raw_kfree_skb.t;
    by_task : Z }.

Definition fire (k : kernel) (f : firing) : kernel :=
  final kernel_handle (trace_tcp_drop (on_ctx f)) (on_task (by_task f) k).

Definition fire_all (k : kernel) (fs : list firing) : kernel :=
  fold_left fire fs k.

(** The event the probe builds on [ctx] when the kernel is [k]. *)
Definition probe_event (k : kernel) (ctx : trace_event_raw_kfree_skb.t)
  : event.t :=
  {| event.pid := u32 (Z.shiftr (u64 (current_pid_tgid k)) 32);
     event.reason := u32 (trace_event_raw_kfree_skb.reason ctx) |}.

(** The event a firing reports. *)
Definition event_of (f : firing) : event.t :=
  {| event.pid := Z.shiftr (by_task f) 32;
     event.reason := trace_event_raw_kfree_skb.reason (on_ctx f) |}.

Definition reported (f : firing) : bool :=
  negb (trace_event_raw_kfree_skb.reason (on_ctx f) <=? 1).

(** ** The userspace side *)

Module Codec.

Inductive error : Set := MalformedRecord.

Inductive decoded : Set :=
| Event (e : event.t)
| Error (err : error).

(** Modelled from the spec: the encoder of the Event Codec, which is
    userspace code outside src/.  The record is two consecutive unsigned
    32-bit integers in native byte order, [pid] then [reason], 8 bytes. *)
Definition encode (bo : endianness) (e : event.t) : list byte :=
  int_bytes bo 4 (event.pid e) ++ int_bytes bo 4 (event.reason e).

(** Modelled from the spec: the decoder of the Event Codec, which is
    userspace code outside src/.  It fails with [MalformedRecord] when the
    input is not 8 bytes long and reads the two integers otherwise. *)
Definition decode (bo : endianness) (bs : list byte) : decoded :=
  if Nat.eqb (List.length bs) 8
  then Event {| event.pid := int_value bo (firstn 4 bs);
                event.reason := int_value bo (firstn 4 (skipn 4 bs)) |}
  else Error MalformedRecord.

End Codec.

Module Collector.

(** Modelled from the spec: the Collector's handling of the records of one
    poll, which is userspace code outside src/.  Each raw record is decoded;
    a malformed one is skipped. *)
Fixpoint decode_all (bo : endianness) (raw : list (list byte))
  : list event.t :=
  match raw with
  | [] => []
  | bs :: raw' =>
      match Codec.decode bo bs with
      | Codec.Event e => e :: decode_all bo raw'
      | Codec.Error _ => decode_all bo raw'
      end
  end.

(** The events one poll of the channel returns, and the kernel after it. *)
Definition poll (k : kernel) : list event.t * kernel :=
  let (raw, rb) := ringbuf_consume (events_rb k) in
  (decode_all (byte_order k) raw, with_rb k rb).

Definition received (k : kernel) : list event.t := fst (poll k).

End Collector.

(** ** States and logs the properties speak of *)

(** The consumer is not ahead of the producer, and every record lies before
    the producer position. *)
Definition rb_wf (rb : ringbuf) : Prop :=
  consumer_pos rb <= producer_pos rb
  /\ Forall (fun r => rec_ptr r + rec_len r <= producer_pos rb) (records rb).

(** No reservation is pending. *)
Definition quiescent (rb : ringbuf) : Prop :=
  Forall (fun r => rec_busy r = false) (records rb).

Definition firing_valid (f : firing) : Prop :=
  trace_event_raw_kfree_skb.valid (on_ctx f) /\ is_u64 (by_task f).

(** A submitted record at position [pos]. *)
Definition committed (pos : Z) (data : list byte) : rb_record :=
  {| rec_pos := pos;
     rec_busy := false;
     rec_discard := false;
     rec_data := data |}.

(** The bytes a record of [struct event] takes in the ring buffer. *)
Definition event_span : Z := round_up (sizeof_event + BPF_RINGBUF_HDR_SZ) 8.

(** The ring buffer after a record [r] is added at the producer position. *)
Definition push (rb : ringbuf) (r : rb_record) : ringbuf :=
  {| rb_size := rb_size rb;
     consumer_pos := consumer_pos rb;
     producer_pos := producer_pos rb + event_span;
     records := records rb ++ [r] |}.

(** The ring buffer cannot take one more record of [struct event]. *)
Definition full (rb : ringbuf) : bool :=
  (rb_size rb <? event_span)
  || (rb_size rb - 1 <? producer_pos rb + event_span - consumer_pos rb).

(** The ring buffer with one more record that is still being written. *)
Definition reserving (rb : ringbuf) (data : list byte) : ringbuf :=
  push rb {| rec_pos := producer_pos rb;
             rec_busy := true;
             rec_discard := false;
             rec_data := data |}.

(** There is room for [n] more records of [struct event]. *)
Definition room (rb : ringbuf) (n : Z) : Prop :=
  producer_pos rb - consumer_pos rb + n * event_span <= rb_size rb - 1.

(** The slots a log reserved, submitted and discarded, in order. *)
Definition reservations (log : list call_record) : list ptr :=
  flat_map (fun c => match c with
                     | reserved _ _ _ (Some e) => [e]
                     | _ => []
                     end) log.

Definition submissions (log : list call_record) : list ptr :=
  flat_map (fun c => match c with submitted e _ => [e] | _ => [] end) log.

Definition discards (log : list call_record) : list ptr :=
  flat_map (fun c => match c with discarded e _ => [e] | _ => [] end) log.

Definition attempts (log : list call_record) : list Z :=
  flat_map (fun c => match c with reserved _ size _ _ => [size] | _ => [] end)
           log.

(** The kernels that arise from attaching the probe, firings of the
    tracepoint and polls of the consumer. *)
Inductive reachable : kernel -> Prop :=
| reach_attach bo task mem k :
    attach bo task mem = Some k -> reachable k
| reach_fire k f :
    reachable k -> firing_valid f -> reachable (fire k f)
| reach_poll k :
    reachable k -> reachable (snd (Collector.poll k)).

(** A record as the probe leaves it: submitted, not discarded, and holding
    the image of a valid event whose reason is above 1. *)
Definition from_probe (bo : endianness) (r : rb_record) : Prop :=
  rec_busy r = false /\ rec_discard r = false
  /\ exists e, event.valid e /\ 1 < event.reason e
               /\ rec_data r = event.image bo e.

(** ** Probes on several CPUs

    The tracepoint fires on any CPU, so several runs of the probe can be
    under way at once, and the consumer can poll between any two of their
    operations.  A system is the kernel together with the runs that have
    started and not yet returned; a step is a firing, one operation of one
    run, a return, or a poll. *)

(** One step of a program: its next operation is answered.  A program that
    has returned does not step. *)
Definition prog_step {S A : Type} (handle : forall X : Type, op X -> S -> X * S)
    (p : prog A) (s : S) : option (prog A * S) :=
  match p with
  | Ret _ => None
  | Call o k => let (x, s') := handle _ o s in Some (k x, s')
  end.

(** A run on a CPU: the task that is current there, and what is left of
    the program. *)
Record cpu : Type := { cpu_task : Z; cpu_rest : prog Z }.

Record system : Type := { sys_kernel : kernel; sys_cpus : list cpu }.

Inductive sys_step : system -> system -> Prop :=
| step_fire k cpus f :
    firing_valid f ->
    sys_step {| sys_kernel := k; sys_cpus := cpus |}
             {| sys_kernel := on_task (by_task f) k;
                sys_cpus := cpus ++ [{| cpu_task := by_task f;
                                        cpu_rest := trace_tcp_drop (on_ctx f) |}] |}
| step_op k before c after p' k' :
    prog_step kernel_handle (cpu_rest c) (on_task (cpu_task c) k)
    = Some (p', k') ->
    sys_step {| sys_kernel := k; sys_cpus := before ++ c :: after |}
             {| sys_kernel := k';
                sys_cpus := before ++ {| cpu_task := cpu_task c;
                                         cpu_rest := p' |} :: after |}
| step_return k before c after r :
    cpu_rest c = Ret r ->
    sys_step {| sys_kernel := k; sys_cpus := before ++ c :: after |}
             {| sys_kernel := k; sys_cpus := before ++ after |}
| step_poll k cpus :
    sys_step {| sys_kernel := k; sys_cpus := cpus |}
             {| sys_kernel := snd (Collector.poll k); sys_cpus := cpus |}.

Inductive sys_reachable : system -> Prop :=
| sys_attach bo task mem k :
    attach bo task mem = Some k ->
    sys_reachable {| sys_kernel := k; sys_cpus := [] |}
| sys_next s s' :
    sys_reachable s -> sys_step s s' -> sys_reachable s'.

(** Schedules: the steps of the system as a function, so that an
    interleaving can be run.  [Advance i] lets the [i]-th run perform its
    next operation, or return when it has none left. *)
Inductive action : Set :=
| Fire (f : firing)
| Advance (i : nat)
| Poll.

Definition firing_ok (f : firing) : bool :=
  (0 <=? trace_event_raw_kfree_skb.reason (on_ctx f))
  && (trace_event_raw_kfree_skb.reason (on_ctx f) <? 2 ^ 32)
  && (0 <=? by_task f) && (by_task f <? 2 ^ 64).

Definition advance (i : nat) (s : system) : option system :=
  match nth_error (sys_cpus s) i with
  | None => None
  | Some c =>
      let before := firstn i (sys_cpus s) in
      let after := skipn (S i) (sys_cpus s) in
      match prog_step kernel_handle (cpu_rest c)
              (on_task (cpu_task c) (sys_kernel s)) with
      | Some (p', k') =>
          Some {| sys_kernel := k';
                  sys_cpus := before ++ {| cpu_task := cpu_task c;
                                           cpu_rest := p' |} :: after |}
      | None =>
          Some {| sys_kernel := sys_kernel s; sys_cpus := before ++ after |}
      end
  end.

Definition act (a : action) (s : system) : option system :=
  match a with
  | Fire f =>
      if firing_ok f
      then Some {| sys_kernel := on_task (by_task f) (sys_kernel s);
                   sys_cpus :=
                     sys_cpus s
                     ++ [{| cpu_task := by_task f;
                            cpu_rest := trace_tcp_drop (on_ctx f) |}] |}
      else None
  | Advance i => advance i s
  | Poll => Some {| sys_kernel := snd (Collector.poll (sys_kernel s));
                    sys_cpus := sys_cpus s |}
  end.

Fixpoint schedule (acts : list action) (s : system) : option system :=
  match acts with
  | [] => Some s
  | a :: acts' =>
      match act a s with
      | Some s' => schedule acts' s'
      | None => None
      end
  end.

(** Where a run of the probe stands: not started; holding the slot [e]
    before and after reading the task identifier [v]; with [pid] stored;
    with both members stored; returned or about to. *)
Inductive phase : Set :=
| Started (ctx : trace_event_raw_kfree_skb.t)
| Reserved (e : ptr) (ctx : trace_event_raw_kfree_skb.t)
| Identified (e : ptr) (v : Z) (ctx : trace_event_raw_kfree_skb.t)
| PidStored (e : ptr) (v : Z) (ctx : trace_event_raw_kfree_skb.t)
| Filled (e : ptr) (v : Z) (ctx : trace_event_raw_kfree_skb.t)
| Finished.

Definition submit_rest (e : ptr) : prog Z :=
  call (bpf_ringbuf_submit e 0) ;; ret 0.

Definition reason_rest (e : ptr) (ctx : trace_event_raw_kfree_skb.t) : prog Z :=
  call (store U32 (e + event.reason_offset)
          (u32 (trace_event_raw_kfree_skb.reason ctx))) ;;
  submit_rest e.

Definition pid_rest (e : ptr) (v : Z) (ctx : trace_event_raw_kfree_skb.t)
  : prog Z :=
  call (store U32 (e + event.pid_offset) (u32 (Z.shiftr v 32))) ;;
  reason_rest e ctx.

(** What is left of the probe in each phase. *)
Definition rest_of (ph : phase) : prog Z :=
  match ph with
  | Started ctx => trace_tcp_drop ctx
  | Reserved e ctx =>
      pid_tgid <- call bpf_get_current_pid_tgid ;; pid_rest e pid_tgid ctx
  | Identified e v ctx => pid_rest e v ctx
  | PidStored e _ ctx => reason_rest e ctx
  | Filled e _ _ => submit_rest e
  | Finished => ret 0
  end.

Definition slot_of (ph : phase) : list ptr :=
  match ph with
  | Started _ | Finished => []
  | Reserved e _ | Identified e _ _ | PidStored e _ _ | Filled e _ _ => [e]
  end.

(** The record at [e] is busy, 8 bytes long, and its payload satisfies [P]. *)
Definition held (rs : list rb_record) (e : ptr) (P : list byte -> Prop) : Prop :=
  exists r, In r rs /\ rec_ptr r = e /\ rec_busy r = true
            /\ List.length (rec_data r) = 8%nat /\ P (rec_data r).

Definition reportable (ctx : trace_event_raw_kfree_skb.t) : Prop :=
  trace_event_raw_kfree_skb.valid ctx
  /\ 1 < trace_event_raw_kfree_skb.reason ctx.

Definition event_in (v : Z) (ctx : trace_event_raw_kfree_skb.t) : event.t :=
  {| event.pid := u32 (Z.shiftr v 32);
     event.reason := u32 (trace_event_raw_kfree_skb.reason ctx) |}.

(** What a run in a given phase has made of its slot. *)
Definition phase_ok (bo : endianness) (rs : list rb_record) (ph : phase) : Prop :=
  match ph with
  | Started ctx => trace_event_raw_kfree_skb.valid ctx
  | Reserved e ctx | Identified e _ ctx =>
      reportable ctx /\ held rs e (fun _ => True)
  | PidStored e v ctx =>
      reportable ctx
      /\ held rs e (fun d => exists d0,
                        List.length d0 = 8%nat
                        /\ d = mem_write event.pid_offset
                                 (int_bytes bo 4 (u32 (Z.shiftr v 32))) d0)
  | Filled e v ctx =>
      reportable ctx /\ held rs e (fun d => d = event.image bo (event_in v ctx))
  | Finished => True
  end.

(** A record ends before the next one begins. *)
Definition rec_before (r r' : rb_record) : Prop :=
  rec_ptr r + rec_len r <= rec_pos r'.

(** The record at [e] replaced by its image under [f]. *)
Definition upd_rec (e : ptr) (f : rb_record -> rb_record) (rs : list rb_record)
  : list rb_record :=
  map (fun r => if rec_ptr r =? e then f r else r) rs.

Definition set_data (d : list byte -> list byte) (r : rb_record) : rb_record :=
  {| rec_pos := rec_pos r;
     rec_busy := rec_busy r;
     rec_discard := rec_discard r;
     rec_data := d (rec_data r) |}.

Definition set_committed (r : rb_record) : rb_record :=
  {| rec_pos := rec_pos r;
     rec_busy := false;
     rec_discard := false;
     rec_data := rec_data r |}.

(** What holds of every reachable system. *)
Definition sys_inv (s : system) : Prop :=
  let k := sys_kernel s in
  let rs := records (events_rb k) in
  rb_wf (events_rb k)
  /\ StronglySorted rec_before rs
  /\ faulted k = false
  /\ Forall (fun r => rec_len r = sizeof_event) rs
  /\ Forall (fun r => rec_busy r = false -> from_probe (byte_order k) r) rs
  /\ exists phs,
       Forall2 (fun c ph => cpu_rest c = rest_of ph
                            /\ phase_ok (byte_order k) rs ph)
               (sys_cpus s) phs
       /\ NoDup (flat_map slot_of phs)
       /\ Forall (fun r => rec_busy r = true
                           -> In (rec_ptr r) (flat_map slot_of phs)) rs.

(** ** Scenarios *)

Module Scenario.

(** A little-endian machine whose unwritten memory holds [0xaa], with the
    probe just attached. *)
Definition boot : kernel :=
  {| byte_order := LittleEndian;
     current_pid_tgid := 0;
     fresh := fun _ => "170"%byte;
     events_rb := {| rb_size := 65536;
                     consumer_pos := 0;
                     producer_pos := 0;
                     records := [] |};
     faulted := false |}.

(** A firing with drop reason [r] in the task with tgid 4242, pid 4243. *)
Definition drop (r : Z) : firing :=
  {| on_ctx := {| trace_event_raw_kfree_skb.reason := r |};
     by_task := Z.lor (Z.shiftl 4242 32) 4243 |}.

Definition event (r : Z) : event.t :=
  {| event.pid := 4242; event.reason := r |}.

(** The end-to-end scenario of the spec. *)
Definition reasons : list Z := [0; 2; 5; 1; 9].

(** A kernel whose consumer has not run while 4095 drops were reported.
    The producer is 65520 bytes ahead of the consumer and may be at most
    65535 ahead, so the 16 bytes of one more record are refused. *)
Definition saturated : kernel :=
  {| byte_order := LittleEndian;
     current_pid_tgid := 0;
     fresh := fun _ => "170"%byte;
     events_rb :=
       {| rb_size := 65536;
          consumer_pos := 0;
          producer_pos := 4095 * 16;
          records :=
            map (fun i => committed (16 * Z.of_nat i)
                            (event.image LittleEndian (event 2)))
                (seq 0 4095) |};
     faulted := false |}.

(** Two drops on two CPUs.  The first run reserves its slot and is then
    overtaken: the second run reserves, fills and submits its record and
    returns while the first has not stored anything yet. *)
Definition overtaking : list action :=
  [Fire (drop 5); Advance 0;
   Fire (drop 9); Advance 1; Advance 1; Advance 1; Advance 1; Advance 1;
   Advance 1].

(** The first run then stores its event, submits and returns. *)
Definition catching_up : list action :=
  [Advance 0; Advance 0; Advance 0; Advance 0; Advance 0].

Definition booted : system := {| sys_kernel := boot; sys_cpus := [] |}.

(** The kernel after both schedules. *)
Definition interleaved : kernel :=
  Eval vm_compute in
    match schedule (overtaking ++ catching_up) booted with
    | Some s => sys_kernel s
    | None => boot
    end.

End Scenario.

(** ** Further notions *)

(** The value [bpf_get_current_pid_tgid] answers for the thread [pid] of
    the process [tgid]: the thread group id in the high 32 bits, the thread
    id in the low ones. *)
Definition pid_tgid_of (tgid pid : Z) : Z := Z.lor (Z.shiftl tgid 32) pid.

(** The kernel with other content in the memory not yet written. *)
Definition with_fresh (mem : Z -> byte) (k : kernel) : kernel :=
  {| byte_order := byte_order k;
     current_pid_tgid := current_pid_tgid k;
     fresh := mem;
     events_rb := events_rb k;
     faulted := faulted k |}.

(** How many more records of [struct event] the ring buffer takes. *)
Definition free_events (rb : ringbuf) : Z :=
  (rb_size rb - 1 - (producer_pos rb - consumer_pos rb)) / event_span.


(** The interleaving of [Scenario.overtaking], carried on until the first
    run has stored both members and is about to submit: the kernel then,
    and the run. *)
Definition filling : list action := [Advance 0; Advance 0; Advance 0].

Definition about_to_submit : kernel :=
  Eval vm_compute in
    match schedule (Scenario.overtaking ++ filling) Scenario.booted with
    | Some s => sys_kernel s
    | None => Scenario.boot
    end.

Definition submitting : cpu :=
  Eval vm_compute in
    match schedule (Scenario.overtaking ++ filling) Scenario.booted with
    | Some {| sys_cpus := c :: _ |} => c
    | _ => {| cpu_task := 0; cpu_rest := Ret 0 |}
    end.
(** * Properties *)

(** ** Machine integers *)

Lemma wrap_range w z : 0 <= w -> 0 <= wrap w z < 2 ^ w.
Proof.
  intros Hw. unfold wrap. apply Z.mod_pos_bound. now apply Z.pow_pos_nonneg.
Qed.

Lemma u32_range z : is_u32 (u32 z).
Proof. apply wrap_range. lia. Qed.

Lemma u32_id z : is_u32 z -> u32 z = z.
Proof. intros H. unfold u32, wrap. now apply Z.mod_small. Qed.

Lemma shiftr32_u64 z : is_u64 z -> is_u32 (Z.shiftr z 32).
Proof.
  unfold is_u64, is_u32. intros [H0 H1].
  rewrite Z.shiftr_div_pow2 by lia. split.
  - apply Z.div_pos; lia.
  - apply Z.div_lt_upper_bound; [lia|].
    change (2 ^ 32 * 2 ^ 32) with (2 ^ 64). exact H1.
Qed.

(** ** Integers in memory *)

Lemma Z_of_byte_of_Z z : Z_of_byte (byte_of_Z z) = z mod 256.
Proof.
  unfold Z_of_byte, byte_of_Z.
  assert (Hr : 0 <= z mod 256 < 256) by (apply Z.mod_pos_bound; lia).
  destruct (Byte.of_N (Z.to_N (z mod 256))) as [b|] eqn:E.
  - apply Byte.to_of_N in E. rewrite E. apply Z2N.id. lia.
  - apply Byte.of_N_None_iff in E. lia.
Qed.

Lemma byte_of_Z_of_byte b : byte_of_Z (Z_of_byte b) = b.
Proof.
  unfold Z_of_byte, byte_of_Z.
  pose proof (Byte.to_N_bounded b) as Hb.
  rewrite Z.mod_small by lia.
  rewrite N2Z.id, Byte.of_to_N. reflexivity.
Qed.

Lemma le_value_le_bytes n v :
  le_value (le_bytes n v) = v mod 2 ^ (8 * Z.of_nat n).
Proof.
  revert v. induction n as [|n IH]; intros v.
  - simpl. rewrite Z.mod_1_r. reflexivity.
  - cbn [le_bytes le_value]. rewrite IH, Z_of_byte_of_Z.
    rewrite Z.shiftl_mul_pow2, Z.shiftr_div_pow2 by lia.
    replace (8 * Z.of_nat (S n)) with (8 + 8 * Z.of_nat n) by lia.
    rewrite Z.pow_add_r by lia.
    change (2 ^ 8) with 256.
    rewrite Z.rem_mul_r by lia. lia.
Qed.

Lemma length_le_bytes n v : List.length (le_bytes n v) = n.
Proof. revert v. induction n; intros; simpl; auto. Qed.

Lemma length_int_bytes bo n v : List.length (int_bytes bo n v) = n.
Proof.
  destruct bo; simpl; [|rewrite length_rev]; apply length_le_bytes.
Qed.

Lemma int_value_int_bytes bo n v :
  int_value bo (int_bytes bo n v) = wrap (8 * Z.of_nat n) v.
Proof.
  destruct bo; simpl; [|rewrite rev_involutive]; apply le_value_le_bytes.
Qed.

Lemma int_value_u32 bo v : int_value bo (int_bytes bo 4 v) = u32 v.
Proof. apply int_value_int_bytes. Qed.

(** ** The layout of [struct event] *)

Lemma sizeof_event_8 : sizeof_event = 8.
Proof. reflexivity. Qed.

(** Assigning both members overwrites all of an 8-byte slot. *)
Lemma assign_slot bo e mem :
  List.length mem = 8%nat ->
  event.assign bo e mem
  = int_bytes bo 4 (event.pid e) ++ int_bytes bo 4 (event.reason e).
Proof.
  intros H.
  do 9 (destruct mem as [|? mem]; try discriminate H).
  unfold event.assign.
  pose proof (length_int_bytes bo 4 (event.pid e)) as Hp.
  pose proof (length_int_bytes bo 4 (event.reason e)) as Hr.
  destruct (int_bytes bo 4 (event.pid e)) as [|p0 [|p1 [|p2 [|p3 [|]]]]];
    try discriminate Hp.
  destruct (int_bytes bo 4 (event.reason e)) as [|r0 [|r1 [|r2 [|r3 [|]]]]];
    try discriminate Hr.
  reflexivity.
Qed.

Lemma image_bytes bo e :
  event.image bo e
  = int_bytes bo 4 (event.pid e) ++ int_bytes bo 4 (event.reason e).
Proof. apply assign_slot. reflexivity. Qed.

Lemma assign_image bo e mem :
  List.length mem = 8%nat -> event.assign bo e mem = event.image bo e.
Proof. intros H. rewrite image_bytes. now apply assign_slot. Qed.

Lemma length_image bo e : List.length (event.image bo e) = 8%nat.
Proof. rewrite image_bytes, length_app, !length_int_bytes. reflexivity. Qed.

Lemma firstn_image bo e :
  firstn 4 (event.image bo e) = int_bytes bo 4 (event.pid e).
Proof.
  rewrite image_bytes.
  rewrite firstn_app, (length_int_bytes bo 4), Nat.sub_diag.
  rewrite firstn_all2 by (rewrite length_int_bytes; lia).
  simpl. apply app_nil_r.
Qed.

Lemma skipn_image bo e :
  skipn 4 (event.image bo e) = int_bytes bo 4 (event.reason e).
Proof.
  rewrite image_bytes.
  rewrite skipn_app, (length_int_bytes bo 4), Nat.sub_diag.
  rewrite skipn_all2 by (rewrite length_int_bytes; lia).
  reflexivity.
Qed.

Lemma read_image bo e :
  event.read bo (event.image bo e)
  = {| event.pid := u32 (event.pid e); event.reason := u32 (event.reason e) |}.
Proof.
  unfold event.read, mem_slice.
  change (Z.to_nat event.pid_offset) with 0%nat.
  change (Z.to_nat event.reason_offset) with 4%nat.
  rewrite skipn_image.
  change (skipn 0 (event.image bo e)) with (event.image bo e).
  rewrite firstn_image.
  rewrite firstn_all2 by (rewrite length_int_bytes; lia).
  rewrite !int_value_u32. reflexivity.
Qed.

Lemma read_image_valid bo e :
  event.valid e -> event.read bo (event.image bo e) = e.
Proof.
  intros [Hp Hr]. rewrite read_image, (u32_id _ Hp), (u32_id _ Hr).
  destruct e; reflexivity.
Qed.

Example image_little_endian :
  event.image LittleEndian {| event.pid := 0x01020304; event.reason := 5 |}
  = ["004"; "003"; "002"; "001"; "005"; "000"; "000"; "000"]%byte.
Proof. reflexivity. Qed.

Example image_big_endian :
  event.image BigEndian {| event.pid := 0x01020304; event.reason := 5 |}
  = ["001"; "002"; "003"; "004"; "000"; "000"; "000"; "005"]%byte.
Proof. reflexivity. Qed.

(** The encoder of the codec produces the memory image of the struct. *)
Lemma encode_image bo e : Codec.encode bo e = event.image bo e.
Proof. symmetry. apply image_bytes. Qed.

(** The decoder of the codec reads an 8-byte record as the struct. *)
Lemma decode_read bo bs :
  List.length bs = 8%nat -> Codec.decode bo bs = Codec.Event (event.read bo bs).
Proof.
  intros H. unfold Codec.decode. rewrite H. cbn [Nat.eqb].
  unfold event.read, mem_slice.
  change (Z.to_nat event.pid_offset) with 0%nat.
  change (Z.to_nat event.reason_offset) with 4%nat.
  reflexivity.
Qed.

(** ** The map *)

Lemma is_power_of_2_spec n :
  is_power_of_2 n = true -> exists m, 0 <= m /\ n = 2 ^ m.
Proof.
  unfold is_power_of_2. intros H. apply andb_true_iff in H as [Hpos Hland].
  apply Z.ltb_lt in Hpos. apply Z.eqb_eq in Hland.
  exists (Z.log2 n). split; [apply Z.log2_nonneg|].
  destruct (Z.log2_spec n Hpos) as [Hlo Hhi].
  destruct (Z.eq_dec n (2 ^ Z.log2 n)) as [|Hne]; [assumption|exfalso].
  assert (Hbit : Z.testbit (Z.land n (n - 1)) (Z.log2 n) = true).
  { rewrite Z.land_spec, (Z.bit_log2 n Hpos). cbn [andb].
    assert (Hn1 : 0 < n - 1) by (pose proof (Z.pow_pos_nonneg 2 (Z.log2 n)
                                   ltac:(lia) (Z.log2_nonneg n)); lia).
    assert (Hl : Z.log2 (n - 1) = Z.log2 n).
    { apply Z.log2_unique; [apply Z.log2_nonneg|]. lia. }
    rewrite <- Hl. now apply Z.bit_log2. }
  rewrite Hland in Hbit. now rewrite Z.bits_0 in Hbit.
Qed.

(** ** The probe against any kernel *)

Section AnyKernel.

Context {S : Type}.
Variable handle : forall X : Type, op X -> S -> X * S.

#[local] Abbreviation reason := trace_event_raw_kfree_skb.reason.

(** The run of the probe, spelled out along its three paths. *)
Lemma run_trace_tcp_drop ctx s :
  run handle (trace_tcp_drop ctx) s =
  if reason ctx <=? 1 then (0, s, []) else
  let (e, s1) := handle _ (bpf_ringbuf_reserve events sizeof_event 0) s in
  match e with
  | None => (0, s1, [reserved events sizeof_event 0 None])
  | Some e =>
      let (pid_tgid, s2) := handle _ bpf_get_current_pid_tgid s1 in
      let (_, s3) :=
        handle _ (store U32 (e + event.pid_offset)
                    (u32 (Z.shiftr pid_tgid 32))) s2 in
      let (_, s4) :=
        handle _ (store U32 (e + event.reason_offset) (u32 (reason ctx))) s3 in
      let (_, s5) := handle _ (bpf_ringbuf_submit e 0) s4 in
      (0, s5,
       [reserved events sizeof_event 0 (Some e);
        pid_tgid_read pid_tgid;
        stored U32 (e + event.pid_offset) (u32 (Z.shiftr pid_tgid 32));
        stored U32 (e + event.reason_offset) (u32 (reason ctx));
        submitted e 0])
  end.
Proof.
  unfold trace_tcp_drop.
  destruct (reason ctx <=? 1); [reflexivity|].
  cbn [bind ret Monad_prog prog_bind call run].
  destruct (handle _ (bpf_ringbuf_reserve events sizeof_event 0) s) as [[e|] s1];
    [|reflexivity].
  cbn [prog_bind run].
  destruct (handle _ bpf_get_current_pid_tgid s1) as [pt s2].
  cbn [prog_bind run record_of].
  destruct (handle _ (store U32 (e + event.pid_offset) _) s2) as [[] s3].
  cbn [prog_bind run record_of].
  destruct (handle _ (store U32 (e + event.reason_offset) _) s3) as [[] s4].
  cbn [prog_bind run record_of].
  destruct (handle _ (bpf_ringbuf_submit e 0) s4) as [[] s5].
  reflexivity.
Qed.

(** The three shapes a run can have: filtered, refused, submitted. *)
Lemma run_shape ctx s :
  exists s',
    run handle (trace_tcp_drop ctx) s = (0, s', [])
    \/ run handle (trace_tcp_drop ctx) s
       = (0, s', [reserved events sizeof_event 0 None])
    \/ exists e v,
         run handle (trace_tcp_drop ctx) s
         = (0, s',
            [reserved events sizeof_event 0 (Some e);
             pid_tgid_read v;
             stored U32 (e + event.pid_offset) (u32 (Z.shiftr v 32));
             stored U32 (e + event.reason_offset) (u32 (reason ctx));
             submitted e 0]).
Proof.
  rewrite run_trace_tcp_drop.
  destruct (reason ctx <=? 1); [eauto|].
  destruct (handle _ (bpf_ringbuf_reserve events sizeof_event 0) s)
    as [[e|] s1]; [|eauto].
  destruct (handle _ bpf_get_current_pid_tgid s1) as [v s2].
  destruct (handle _ (store U32 (e + event.pid_offset) _) s2) as [[] s3].
  destruct (handle _ (store U32 (e + event.reason_offset) _) s3) as [[] s4].
  destruct (handle _ (bpf_ringbuf_submit e 0) s4) as [[] s5].
  eauto 6.
Qed.

End AnyKernel.

(** The log of the probe, whatever the kernel: what is reserved is
    submitted, once, as the last operation, and nothing is discarded. *)
Lemma calls_balanced
    (S : Type) (handle : forall X : Type, op X -> S -> X * S) s ctx :
  let log := calls handle (trace_tcp_drop ctx) s in
  submissions log = reservations log
  /\ discards log = []
  /\ (List.length (reservations log) <= 1)%nat
  /\ forall e, In e (reservations log) ->
               exists before,
                 log = before ++ [submitted e 0]
                 /\ submissions before = [] /\ discards before = [].
Proof.
  unfold calls.
  destruct (run_shape handle ctx s) as (s' & [-> | [-> | (e & v & ->)]]);
    cbn; repeat split; try lia; try (now intros ? []).
  intros e' [<- | []]. eexists [_; _; _; _]. repeat split.
Qed.

(** ** The ring buffer *)

Lemma event_span_16 : event_span = 16.
Proof. reflexivity. Qed.

Lemma rec_len_nonneg r : 0 <= rec_len r.
Proof. unfold rec_len. lia. Qed.

Lemma length_write off bs mem :
  List.length (mem_write off bs mem) = List.length mem.
Proof.
  unfold mem_write.
  destruct (0 <=? off) eqn:E0; [|reflexivity].
  destruct (off + Z.of_nat (List.length bs) <=? Z.of_nat (List.length mem)) eqn:E1;
    [|reflexivity].
  cbn [andb]. apply Z.leb_le in E0, E1.
  rewrite !length_app, length_firstn, length_skipn. lia.
Qed.

(** Records [old] that lie before position [pos], and a record [new] at
    [pos]: a store or a submit at the payload of [new] finds [new]. *)
Lemma store_records_last old pos new addr bs :
  Forall (fun r => rec_ptr r + rec_len r <= pos) old ->
  rec_pos new = pos ->
  holds new addr (Z.of_nat (List.length bs)) = true ->
  store_records addr bs (old ++ [new])
  = Some (old ++ [{| rec_pos := rec_pos new;
                     rec_busy := rec_busy new;
                     rec_discard := rec_discard new;
                     rec_data := mem_write (addr - rec_ptr new) bs
                                   (rec_data new) |}]).
Proof.
  intros Hold Hpos Hnew.
  induction old as [|r rs IH]; cbn [app store_records].
  - rewrite Hnew. reflexivity.
  - inversion Hold as [|? ? Hr Hrs]; subst.
    assert (Hr' : holds r addr (Z.of_nat (List.length bs)) = false).
    { unfold holds in *. apply andb_true_iff in Hnew as [Hnew _].
      apply andb_true_iff in Hnew as [_ Hnew]. apply Z.leb_le in Hnew.
      unfold rec_ptr, BPF_RINGBUF_HDR_SZ in *.
      destruct (rec_busy r); [|reflexivity]. cbn [andb].
      destruct (rec_pos r + 8 <=? addr); [|reflexivity]. cbn [andb].
      apply Z.leb_gt. lia. }
    rewrite Hr', (IH Hrs). reflexivity.
Qed.

Lemma commit_records_last old pos new discard :
  Forall (fun r => rec_ptr r + rec_len r <= pos) old ->
  rec_pos new = pos ->
  rec_busy new = true ->
  commit_records (rec_ptr new) discard (old ++ [new])
  = Some (old ++ [{| rec_pos := rec_pos new;
                     rec_busy := false;
                     rec_discard := discard;
                     rec_data := rec_data new |}]).
Proof.
  intros Hold Hpos Hbusy.
  induction old as [|r rs IH]; cbn [app commit_records].
  - rewrite Hbusy, Z.eqb_refl. reflexivity.
  - inversion Hold as [|? ? Hr Hrs]; subst.
    assert (Hr' : rec_busy r && (rec_ptr r =? rec_ptr new) = false).
    { destruct (rec_busy r); [|reflexivity]. cbn [andb].
      apply Z.eqb_neq. pose proof (rec_len_nonneg r).
      unfold rec_ptr, BPF_RINGBUF_HDR_SZ in *. lia. }
    rewrite Hr', (IH Hrs). reflexivity.
Qed.

(** The reservation of one [struct event], by cases on [full]. *)
Lemma ringbuf_reserve_event mem rb :
  ringbuf_reserve mem rb sizeof_event 0 =
  if full rb then (None, rb)
  else (Some (producer_pos rb + BPF_RINGBUF_HDR_SZ),
        push rb {| rec_pos := producer_pos rb;
                   rec_busy := true;
                   rec_discard := false;
                   rec_data :=
                     map (fun i => mem (producer_pos rb + BPF_RINGBUF_HDR_SZ
                                        + Z.of_nat i))
                         (seq 0 8) |}).
Proof.
  unfold ringbuf_reserve, full.
  change (round_up (sizeof_event + BPF_RINGBUF_HDR_SZ) 8) with event_span.
  change (negb (0 =? 0)) with false.
  change (sizeof_event <? 0) with false.
  change (RINGBUF_MAX_RECORD_SZ <? sizeof_event) with false.
  cbn [orb].
  destruct ((rb_size rb <? event_span)
            || (rb_size rb - 1 <? producer_pos rb + event_span - consumer_pos rb));
    reflexivity.
Qed.

(** ** The probe against the ring buffer *)

Lemma with_rb_same k : with_rb k (events_rb k) = k.
Proof. destruct k; reflexivity. Qed.

Lemma holds_slot r pos off n :
  rec_pos r = pos -> rec_busy r = true -> List.length (rec_data r) = 8%nat ->
  0 <= off -> 0 <= n -> off + n <= 8 ->
  holds r (pos + BPF_RINGBUF_HDR_SZ + off) n = true.
Proof.
  intros Hpos Hbusy Hlen Hoff Hn Hfit. unfold holds, rec_ptr, rec_len.
  rewrite Hpos, Hbusy, Hlen. cbn [andb].
  apply andb_true_iff. split; apply Z.leb_le; lia.
Qed.

Section Slot.

(** A kernel [k] with a well-formed ring buffer, to which a busy record [r]
    of 8 bytes has just been added. *)
Variables (k : kernel) (r : rb_record).
Hypothesis Hwf : rb_wf (events_rb k).
Let Hold := proj2 Hwf.
Hypothesis Hpos : rec_pos r = producer_pos (events_rb k).
Hypothesis Hbusy : rec_busy r = true.
Hypothesis Hlen : List.length (rec_data r) = 8%nat.

Lemma store_in_slot t off v :
  0 <= off -> off + sizeof t <= 8 ->
  kernel_handle _
    (store t (producer_pos (events_rb k) + BPF_RINGBUF_HDR_SZ + off) v)
    (with_rb k (push (events_rb k) r))
  = (tt,
     with_rb k
       (push (events_rb k)
          {| rec_pos := rec_pos r;
             rec_busy := rec_busy r;
             rec_discard := rec_discard r;
             rec_data :=
               mem_write off
                 (int_bytes (byte_order k) (Z.to_nat (sizeof t)) v)
                 (rec_data r) |})).
Proof.
  intros Hoff Hfit.
  assert (Hsz : 0 <= sizeof t) by (destruct t; cbn; lia).
  cbn [kernel_handle with_rb push events_rb records byte_order].
  rewrite (store_records_last _ (producer_pos (events_rb k)));
    [ | exact Hold | exact Hpos
      | rewrite length_int_bytes, Z2Nat.id by exact Hsz;
        now apply holds_slot ].
  replace (producer_pos (events_rb k) + BPF_RINGBUF_HDR_SZ + off - rec_ptr r)
    with off by (unfold rec_ptr; rewrite Hpos; lia).
  reflexivity.
Qed.

Lemma submit_slot flags :
  kernel_handle _
    (bpf_ringbuf_submit (producer_pos (events_rb k) + BPF_RINGBUF_HDR_SZ) flags)
    (with_rb k (push (events_rb k) r))
  = (tt,
     with_rb k
       (push (events_rb k) (committed (rec_pos r) (rec_data r)))).
Proof.
  cbn [kernel_handle with_rb push events_rb records].
  replace (producer_pos (events_rb k) + BPF_RINGBUF_HDR_SZ) with (rec_ptr r)
    by (unfold rec_ptr; now rewrite Hpos).
  rewrite (commit_records_last _ (producer_pos (events_rb k)));
    [ reflexivity | exact Hold | exact Hpos | exact Hbusy ].
Qed.

End Slot.

Lemma reserve_event m k :
  kernel_handle _ (bpf_ringbuf_reserve m sizeof_event 0) k =
  if full (events_rb k) then (None, k)
  else (Some (producer_pos (events_rb k) + BPF_RINGBUF_HDR_SZ),
        with_rb k
          (push (events_rb k)
             {| rec_pos := producer_pos (events_rb k);
                rec_busy := true;
                rec_discard := false;
                rec_data :=
                  map (fun i => fresh k (producer_pos (events_rb k)
                                         + BPF_RINGBUF_HDR_SZ + Z.of_nat i))
                      (seq 0 8) |})).
Proof.
  cbn [kernel_handle]. rewrite ringbuf_reserve_event.
  destruct (full (events_rb k)); [rewrite with_rb_same|]; reflexivity.
Qed.

Lemma read_pid_tgid k :
  kernel_handle _ bpf_get_current_pid_tgid k = (u64 (current_pid_tgid k), k).
Proof. reflexivity. Qed.

(** The run of the probe on a well-formed ring buffer: nothing when the
    reason is filtered, one failed reservation when the buffer is full, and
    otherwise one more submitted record that holds the event. *)
Lemma run_probe k ctx :
  rb_wf (events_rb k) ->
  run kernel_handle (trace_tcp_drop ctx) k =
  if trace_event_raw_kfree_skb.reason ctx <=? 1 then (0, k, [])
  else if full (events_rb k)
  then (0, k, [reserved events sizeof_event 0 None])
  else
    let e := producer_pos (events_rb k) + BPF_RINGBUF_HDR_SZ in
    (0,
     with_rb k
       (push (events_rb k)
          (committed (producer_pos (events_rb k))
             (event.image (byte_order k) (probe_event k ctx)))),
     [reserved events sizeof_event 0 (Some e);
      pid_tgid_read (u64 (current_pid_tgid k));
      stored U32 (e + event.pid_offset) (event.pid (probe_event k ctx));
      stored U32 (e + event.reason_offset) (event.reason (probe_event k ctx));
      submitted e 0]).
Proof.
  intros Hwf. rewrite run_trace_tcp_drop.
  destruct (trace_event_raw_kfree_skb.reason ctx <=? 1); [reflexivity|].
  rewrite reserve_event.
  destruct (full (events_rb k)); [reflexivity|].
  set (d0 := map _ (seq 0 8)).
  assert (Hd0 : List.length d0 = 8%nat) by reflexivity.
  clearbody d0.
  rewrite read_pid_tgid. cbn [with_rb current_pid_tgid].
  rewrite store_in_slot; cbn [rec_pos rec_busy rec_discard rec_data];
    [ | assumption | reflexivity | reflexivity | assumption
      | cbn; lia | cbn; lia ].
  rewrite store_in_slot; cbn [rec_pos rec_busy rec_discard rec_data];
    [ | assumption | reflexivity | reflexivity
      | now rewrite length_write | cbn; lia | cbn; lia ].
  rewrite submit_slot; cbn [rec_pos rec_busy rec_discard rec_data];
    [ | assumption | reflexivity | reflexivity ].
  change (Z.to_nat (sizeof U32)) with 4%nat.
  change (mem_write event.reason_offset
            (int_bytes (byte_order k) 4
               (u32 (trace_event_raw_kfree_skb.reason ctx)))
            (mem_write event.pid_offset
               (int_bytes (byte_order k) 4
                  (u32 (Z.shiftr (u64 (current_pid_tgid k)) 32))) d0))
    with (event.assign (byte_order k) (probe_event k ctx) d0).
  rewrite (assign_image _ _ _ Hd0). reflexivity.
Qed.

(** ** Firings *)

Lemma u64_id z : is_u64 z -> u64 z = z.
Proof. intros H. unfold u64, wrap. now apply Z.mod_small. Qed.

Lemma probe_event_firing k f :
  firing_valid f -> probe_event (on_task (by_task f) k) (on_ctx f) = event_of f.
Proof.
  intros [Hc Ht]. unfold probe_event, event_of. cbn [on_task current_pid_tgid].
  rewrite (u64_id _ Ht), (u32_id _ (shiftr32_u64 _ Ht)), (u32_id _ Hc).
  reflexivity.
Qed.

Lemma event_of_valid f : firing_valid f -> event.valid (event_of f).
Proof.
  intros [Hc Ht]. split; cbn; [now apply shiftr32_u64 | exact Hc].
Qed.

Lemma fire_eq k f :
  rb_wf (events_rb k) ->
  fire k f =
  let k0 := on_task (by_task f) k in
  if trace_event_raw_kfree_skb.reason (on_ctx f) <=? 1 then k0
  else if full (events_rb k) then k0
  else with_rb k0
         (push (events_rb k)
            (committed (producer_pos (events_rb k))
               (event.image (byte_order k) (probe_event k0 (on_ctx f))))).
Proof.
  intros Hwf. unfold fire, final.
  rewrite run_probe by exact Hwf. cbn [on_task events_rb byte_order].
  destruct (trace_event_raw_kfree_skb.reason (on_ctx f) <=? 1); [reflexivity|].
  destruct (full (events_rb k)); reflexivity.
Qed.

Lemma rb_wf_push rb data :
  rb_wf rb -> List.length data = 8%nat ->
  rb_wf (push rb (committed (producer_pos rb) data)).
Proof.
  intros [Hc Hr] Hlen. split; cbn [push consumer_pos producer_pos records].
  - rewrite event_span_16. lia.
  - apply Forall_app. split.
    + eapply Forall_impl; [|exact Hr]. cbn beta. intros r H.
      rewrite event_span_16. lia.
    + constructor; [|constructor].
      unfold rec_ptr, rec_len, BPF_RINGBUF_HDR_SZ, committed.
      cbn [rec_pos rec_data].
      rewrite Hlen, event_span_16. lia.
Qed.

Lemma rb_wf_fire k f : rb_wf (events_rb k) -> rb_wf (events_rb (fire k f)).
Proof.
  intros Hwf. rewrite fire_eq by exact Hwf. cbv zeta.
  destruct (trace_event_raw_kfree_skb.reason (on_ctx f) <=? 1); [exact Hwf|].
  destruct (full (events_rb k)); [exact Hwf|].
  cbn [with_rb events_rb]. apply rb_wf_push; [exact Hwf|apply length_image].
Qed.

Lemma byte_order_fire k f : byte_order (fire k f) = byte_order k.
Proof.
  unfold fire, final. rewrite run_trace_tcp_drop.
  destruct (trace_event_raw_kfree_skb.reason (on_ctx f) <=? 1); [reflexivity|].
  cbn [kernel_handle].
  destruct (ringbuf_reserve _ _ _ _) as [[e|] rb]; [|reflexivity].
  cbn [with_rb byte_order events_rb on_task].
  repeat match goal with
         | |- context [match ?x with Some _ => _ | None => _ end] =>
             destruct x; cbn [with_rb fault byte_order events_rb]
         end; reflexivity.
Qed.

(** ** The consumer *)

Lemma take_ready_split rs :
  fst (take_ready rs) ++ snd (take_ready rs) = rs.
Proof.
  induction rs as [|r rs IH]; [reflexivity|]. cbn [take_ready].
  destruct (rec_busy r); [reflexivity|].
  destruct (take_ready rs) as [ready rest]. cbn in *. now rewrite IH.
Qed.

Lemma take_ready_quiescent rs :
  Forall (fun r => rec_busy r = false) rs -> take_ready rs = (rs, []).
Proof.
  induction 1 as [|r rs Hr _ IH]; [reflexivity|].
  cbn [take_ready]. now rewrite Hr, IH.
Qed.

(** A busy record at the end is not handed to the consumer. *)
Lemma take_ready_busy_last rs r :
  rec_busy r = true -> fst (take_ready (rs ++ [r])) = fst (take_ready rs).
Proof.
  intros Hr. induction rs as [|r' rs IH]; cbn [app take_ready].
  - now rewrite Hr.
  - destruct (rec_busy r'); [reflexivity|].
    destruct (take_ready (rs ++ [r])) as [a b], (take_ready rs) as [c d].
    cbn in *. now rewrite IH.
Qed.

Lemma samples_app rs1 rs2 : samples (rs1 ++ rs2) = samples rs1 ++ samples rs2.
Proof. unfold samples. now rewrite filter_app, map_app. Qed.

Lemma decode_all_app bo raw1 raw2 :
  Collector.decode_all bo (raw1 ++ raw2)
  = Collector.decode_all bo raw1 ++ Collector.decode_all bo raw2.
Proof.
  induction raw1 as [|bs raw1 IH]; [reflexivity|].
  cbn [app Collector.decode_all].
  destruct (Codec.decode bo bs); rewrite IH; reflexivity.
Qed.

Lemma decode_image bo e :
  event.valid e -> Codec.decode bo (event.image bo e) = Codec.Event e.
Proof.
  intros He.
  rewrite decode_read by apply length_image.
  now rewrite read_image_valid.
Qed.

Lemma rb_wf_consume rb : rb_wf rb -> rb_wf (snd (ringbuf_consume rb)).
Proof.
  intros [Hc Hr]. unfold ringbuf_consume.
  pose proof (take_ready_split (records rb)) as Hs.
  destruct (take_ready (records rb)) as [ready rest]. cbn in Hs.
  rewrite <- Hs in Hr. apply Forall_app in Hr as [_ Hrest].
  split; cbn [snd consumer_pos producer_pos records]; [|exact Hrest].
  destruct rest as [|r rest]; [lia|].
  inversion Hrest as [|? ? H _]; subst.
  pose proof (rec_len_nonneg r). unfold rec_ptr, BPF_RINGBUF_HDR_SZ in H. lia.
Qed.

Lemma from_probe_read bo r :
  from_probe bo r ->
  1 < event.reason (event.read bo (rec_data r))
  /\ Codec.decode bo (rec_data r) = Codec.Event (event.read bo (rec_data r))
  /\ rec_len r = sizeof_event.
Proof.
  intros (_ & _ & e & He & Hr & Hd). unfold rec_len. rewrite Hd.
  rewrite (decode_image _ _ He), (read_image_valid _ _ He), length_image.
  auto.
Qed.

Lemma decode_all_from_probe bo rs :
  Forall (from_probe bo) rs ->
  Collector.decode_all bo (samples rs)
  = map (fun r => event.read bo (rec_data r)) rs.
Proof.
  induction 1 as [|r rs Hr _ IH]; [reflexivity|].
  pose proof (from_probe_read _ _ Hr) as (_ & Hd & _).
  destruct Hr as (_ & Hdis & _).
  unfold samples in *. cbn [filter map]. rewrite Hdis. cbn [negb map].
  cbn [Collector.decode_all]. rewrite Hd, IH. reflexivity.
Qed.

Lemma samples_from_probe bo rs :
  Forall (from_probe bo) rs -> samples rs = map rec_data rs.
Proof.
  induction 1 as [|r rs (_ & Hdis & _) _ IH]; [reflexivity|].
  unfold samples in *. cbn [filter map]. rewrite Hdis. cbn [negb map].
  now rewrite IH.
Qed.

(** ** Sequences of firings *)

Lemma events_rb_fire k f :
  rb_wf (events_rb k) -> firing_valid f ->
  events_rb (fire k f) =
  if reported f && negb (full (events_rb k))
  then push (events_rb k)
         (committed (producer_pos (events_rb k))
            (event.image (byte_order k) (event_of f)))
  else events_rb k.
Proof.
  intros Hwf Hf. rewrite fire_eq by exact Hwf. cbv zeta. unfold reported.
  destruct (trace_event_raw_kfree_skb.reason (on_ctx f) <=? 1); [reflexivity|].
  destruct (full (events_rb k)); [reflexivity|].
  cbn [negb andb with_rb events_rb]. now rewrite probe_event_firing.
Qed.

Lemma room_not_full rb n :
  rb_wf rb -> 0 < n -> room rb n -> full rb = false.
Proof.
  intros [Hc _] Hn Hroom. unfold room, full in *. rewrite event_span_16 in *.
  apply orb_false_iff. split; apply Z.ltb_ge; nia.
Qed.

Lemma received_quiescent k :
  quiescent (events_rb k) ->
  Collector.received k
  = Collector.decode_all (byte_order k) (samples (records (events_rb k))).
Proof.
  intros Hq. unfold Collector.received, Collector.poll, ringbuf_consume.
  now rewrite (take_ready_quiescent _ Hq).
Qed.

Lemma samples_committed pos data : samples [committed pos data] = [data].
Proof. reflexivity. Qed.

Lemma quiescent_push rb pos data :
  quiescent rb -> quiescent (push rb (committed pos data)).
Proof.
  intros Hq. unfold quiescent, push. cbn [records].
  apply Forall_app. split; [exact Hq|]. now repeat constructor.
Qed.

(** ** Saturation *)

Lemma reachable_fire_all k fs :
  reachable k -> Forall firing_valid fs -> reachable (fire_all k fs).
Proof.
  intros Hk Hfs. revert k Hk.
  induction Hfs as [|f fs Hf _ IH]; intros k Hk; [exact Hk|].
  cbn [fire_all fold_left]. apply IH. now apply reach_fire.
Qed.

(** [n] reported firings in a row, with room for all of them, add [n]
    records of 16 bytes, one after the other. *)
Lemma events_rb_fire_repeat k f n :
  rb_wf (events_rb k) -> firing_valid f -> reported f = true ->
  room (events_rb k) (Z.of_nat n) ->
  events_rb (fire_all k (repeat f n))
  = {| rb_size := rb_size (events_rb k);
       consumer_pos := consumer_pos (events_rb k);
       producer_pos := producer_pos (events_rb k) + 16 * Z.of_nat n;
       records :=
         records (events_rb k)
         ++ map (fun i => committed (producer_pos (events_rb k)
                                     + 16 * Z.of_nat i)
                            (event.image (byte_order k) (event_of f)))
                (seq 0 n) |}.
Proof.
  intros Hwf Hf Hrep. revert k Hwf.
  induction n as [|n IH]; intros k Hwf Hroom.
  - cbn. rewrite Z.add_0_r, app_nil_r. now destruct (events_rb k).
  - cbn [repeat fire_all fold_left].
    change (fold_left fire (repeat f n) (fire k f))
      with (fire_all (fire k f) (repeat f n)).
    pose proof (events_rb_fire k f Hwf Hf) as Hrb.
    rewrite Hrep, (room_not_full _ (Z.of_nat (S n)) Hwf) in Hrb
      by (lia || exact Hroom).
    cbn [negb andb] in Hrb.
    rewrite IH;
      [ | now apply rb_wf_fire
        | rewrite Hrb; unfold room in *;
          cbn [push producer_pos consumer_pos rb_size]; lia ].
    rewrite Hrb, byte_order_fire.
    cbn [push rb_size consumer_pos producer_pos records].
    rewrite event_span_16, <- app_assoc. cbn [app seq map].
    rewrite <- seq_shift, map_map.
    f_equal; [lia|]. f_equal.
    rewrite Z.add_0_r. f_equal.
    apply map_ext. intros i. f_equal. lia.
Qed.

(** The saturated kernel of the scenarios is where 4095 reported drops that
    no poll has consumed lead; the next reservation is refused there. *)
Lemma saturated_by_firing :
  let k := fire_all Scenario.boot (repeat (Scenario.drop 2) 4095) in
  reachable k
  /\ events_rb k = events_rb Scenario.saturated
  /\ full (events_rb k) = true.
Proof.
  assert (Hf : firing_valid (Scenario.drop 2))
    by (split; cbv; split; congruence).
  intros k. split; [|split].
  - apply reachable_fire_all.
    + now apply (reach_attach LittleEndian 0 (fun _ => "170"%byte)).
    + clear k. generalize 4095%nat. intros n. induction n; now constructor.
  - unfold k. rewrite events_rb_fire_repeat;
      [ reflexivity | split; [cbn; lia | constructor] | exact Hf
        | reflexivity | cbv; congruence ].
  - unfold k. rewrite events_rb_fire_repeat;
      [ reflexivity | split; [cbn; lia | constructor] | exact Hf
        | reflexivity | cbv; congruence ].
Qed.

(** ** The states a run goes through *)

Lemma states_trace_tcp_drop
    (S : Type) (handle : forall X : Type, op X -> S -> X * S) ctx s :
  states handle (trace_tcp_drop ctx) s =
  if trace_event_raw_kfree_skb.reason ctx <=? 1 then [s] else
  let (e, s1) := handle _ (bpf_ringbuf_reserve events sizeof_event 0) s in
  match e with
  | None => [s; s1]
  | Some e =>
      let (pid_tgid, s2) := handle _ bpf_get_current_pid_tgid s1 in
      let (_, s3) :=
        handle _ (store U32 (e + event.pid_offset)
                    (u32 (Z.shiftr pid_tgid 32))) s2 in
      let (_, s4) :=
        handle _ (store U32 (e + event.reason_offset)
                    (u32 (trace_event_raw_kfree_skb.reason ctx))) s3 in
      let (_, s5) := handle _ (bpf_ringbuf_submit e 0) s4 in
      [s; s1; s2; s3; s4; s5]
  end.
Proof.
  unfold trace_tcp_drop.
  destruct (trace_event_raw_kfree_skb.reason ctx <=? 1); [reflexivity|].
  cbn [bind ret Monad_prog prog_bind call states].
  destruct (handle _ (bpf_ringbuf_reserve events sizeof_event 0) s) as [[e|] s1];
    [|reflexivity].
  cbn [prog_bind states].
  destruct (handle _ bpf_get_current_pid_tgid s1) as [pt s2].
  cbn [prog_bind states].
  destruct (handle _ (store U32 (e + event.pid_offset) _) s2) as [[] s3].
  cbn [prog_bind states].
  destruct (handle _ (store U32 (e + event.reason_offset) _) s3) as [[] s4].
  cbn [prog_bind states].
  destruct (handle _ (bpf_ringbuf_submit e 0) s4) as [[] s5].
  reflexivity.
Qed.

(** While the probe runs on a well-formed ring buffer, the ring buffer is
    as it was, or has the record of the probe still busy at its end, or,
    last, has it submitted with the whole event in it. *)
Lemma states_probe k ctx :
  rb_wf (events_rb k) ->
  Forall (fun ki =>
            events_rb ki = events_rb k
            \/ (exists d, events_rb ki = reserving (events_rb k) d)
            \/ ki = final kernel_handle (trace_tcp_drop ctx) k)
         (states kernel_handle (trace_tcp_drop ctx) k).
Proof.
  intros Hwf. unfold final. rewrite run_trace_tcp_drop, states_trace_tcp_drop.
  destruct (trace_event_raw_kfree_skb.reason ctx <=? 1);
    [repeat (apply Forall_cons || apply Forall_nil); now left|].
  rewrite reserve_event.
  destruct (full (events_rb k));
    [repeat (apply Forall_cons || apply Forall_nil); now left|].
  set (d0 := map _ (seq 0 8)).
  assert (Hd0 : List.length d0 = 8%nat) by reflexivity.
  clearbody d0.
  rewrite read_pid_tgid. cbn [with_rb current_pid_tgid].
  rewrite store_in_slot; cbn [rec_pos rec_busy rec_discard rec_data];
    [ | assumption | reflexivity | reflexivity | assumption
      | cbn; lia | cbn; lia ].
  rewrite store_in_slot; cbn [rec_pos rec_busy rec_discard rec_data];
    [ | assumption | reflexivity | reflexivity
      | now rewrite length_write | cbn; lia | cbn; lia ].
  rewrite submit_slot; cbn [rec_pos rec_busy rec_discard rec_data];
    [ | assumption | reflexivity | reflexivity ].
  cbn [fst snd].
  repeat (apply Forall_cons || apply Forall_nil);
    solve [ now left
          | right; left; eexists; reflexivity
          | right; right; reflexivity ].
Qed.

Lemma visible_eq rb : visible rb = samples (fst (take_ready (records rb))).
Proof.
  unfold visible, ringbuf_consume. now destruct (take_ready (records rb)).
Qed.

Lemma visible_reserving rb d : visible (reserving rb d) = visible rb.
Proof.
  rewrite !visible_eq. unfold reserving, push. cbn [records].
  now rewrite take_ready_busy_last.
Qed.

Lemma take_ready_committed_last rs r :
  rec_busy r = false ->
  fst (take_ready (rs ++ [r])) = fst (take_ready rs)
  \/ fst (take_ready (rs ++ [r])) = fst (take_ready rs) ++ [r].
Proof.
  intros Hr. induction rs as [|r' rs IH]; cbn [app take_ready].
  - rewrite Hr. now right.
  - destruct (rec_busy r'); [now left|].
    destruct (take_ready (rs ++ [r])) as [a b], (take_ready rs) as [c d].
    cbn [fst] in *. destruct IH as [-> | ->]; [now left | now right].
Qed.

Lemma visible_committed rb pos d :
  visible (push rb (committed pos d)) = visible rb
  \/ visible (push rb (committed pos d)) = visible rb ++ [d].
Proof.
  rewrite !visible_eq. unfold push. cbn [records].
  destruct (take_ready_committed_last (records rb) (committed pos d) eq_refl)
    as [-> | ->]; [now left|right].
  now rewrite samples_app.
Qed.

(** * Properties of interleaved runs *)

(** ** Records found by their address *)

Lemma rec_before_ptr r r' : rec_before r r' -> rec_ptr r < rec_ptr r'.
Proof.
  unfold rec_before, rec_ptr, BPF_RINGBUF_HDR_SZ.
  pose proof (rec_len_nonneg r). lia.
Qed.

(** In a sorted ring buffer the address of a record identifies it. *)
Lemma sorted_ptr_unique rs r r' :
  StronglySorted rec_before rs ->
  In r rs -> In r' rs -> rec_ptr r = rec_ptr r' -> r = r'.
Proof.
  induction 1 as [|a rs Hs IH Ha]; intros Hr Hr' Heq; [destruct Hr|].
  rewrite Forall_forall in Ha.
  destruct Hr as [<- | Hr], Hr' as [<- | Hr']; auto.
  - apply Ha, rec_before_ptr in Hr'. lia.
  - apply Ha, rec_before_ptr in Hr. lia.
Qed.

Lemma upd_rec_absent e f rs :
  Forall (fun r => rec_ptr r <> e) rs -> upd_rec e f rs = rs.
Proof.
  induction 1 as [|r rs Hr _ IH]; [reflexivity|].
  unfold upd_rec in *. cbn [map]. rewrite IH.
  apply Z.eqb_neq in Hr. now rewrite Hr.
Qed.

Lemma sorted_tail_absent r rs :
  Forall (rec_before r) rs -> Forall (fun r' => rec_ptr r' <> rec_ptr r) rs.
Proof.
  apply Forall_impl. intros r' H. apply rec_before_ptr in H. lia.
Qed.

(** A store into the payload of the busy 8-byte record at [e] changes that
    record and no other. *)
Lemma store_records_upd rs e off bs :
  StronglySorted rec_before rs ->
  held rs e (fun _ => True) ->
  0 <= off -> off + Z.of_nat (List.length bs) <= 8 ->
  store_records (e + off) bs rs
  = Some (upd_rec e (set_data (mem_write off bs)) rs).
Proof.
  intros Hs (r0 & Hin & Hptr & Hbusy & Hlen & _) Hoff Hfit.
  induction Hs as [|r rs Hs IH Hr]; [destruct Hin|].
  cbn [store_records]. unfold upd_rec. cbn [map]. fold (upd_rec e (set_data (mem_write off bs)) rs).
  destruct (Z.eqb_spec (rec_ptr r) e) as [Heq | Hne].
  - assert (r0 = r) as ->.
    { apply (sorted_ptr_unique (r :: rs)); [now constructor | assumption
                                            | now left | congruence]. }
    assert (Hh : holds r (e + off) (Z.of_nat (List.length bs)) = true).
    { unfold holds, rec_len. rewrite Hbusy, Hlen, Heq. cbn [andb].
      apply andb_true_iff. split; apply Z.leb_le; lia. }
    rewrite Hh, upd_rec_absent.
    + unfold set_data. now replace (e + off - rec_ptr r) with off by lia.
    + rewrite <- Heq. now apply sorted_tail_absent.
  - destruct Hin as [-> | Hin]; [congruence|].
    assert (Hh : holds r (e + off) (Z.of_nat (List.length bs)) = false).
    { rewrite Forall_forall in Hr. specialize (Hr _ Hin).
      unfold rec_before in Hr. unfold holds.
      destruct (rec_busy r); [|reflexivity]. cbn [andb].
      destruct (rec_ptr r <=? e + off); [|reflexivity]. cbn [andb].
      apply Z.leb_gt. unfold rec_ptr, BPF_RINGBUF_HDR_SZ in *. lia. }
    rewrite Hh, (IH Hin). reflexivity.
Qed.

(** A submit of the busy record at [e] changes that record and no other. *)
Lemma commit_records_upd rs e :
  StronglySorted rec_before rs ->
  held rs e (fun _ => True) ->
  commit_records e false rs = Some (upd_rec e set_committed rs).
Proof.
  intros Hs (r0 & Hin & Hptr & Hbusy & _).
  induction Hs as [|r rs Hs IH Hr]; [destruct Hin|].
  cbn [commit_records]. unfold upd_rec. cbn [map].
  fold (upd_rec e set_committed rs).
  destruct (Z.eqb_spec (rec_ptr r) e) as [Heq | Hne].
  - assert (r0 = r) as ->.
    { apply (sorted_ptr_unique (r :: rs)); [now constructor | assumption
                                            | now left | congruence]. }
    rewrite Hbusy. cbn [andb]. rewrite upd_rec_absent; [reflexivity|].
    rewrite <- Heq. now apply sorted_tail_absent.
  - destruct Hin as [-> | Hin]; [congruence|].
    rewrite andb_false_r, (IH Hin). reflexivity.
Qed.

Lemma in_upd_rec e f rs r' :
  In r' (upd_rec e f rs) ->
  (In r' rs /\ rec_ptr r' <> e)
  \/ (exists r, In r rs /\ rec_ptr r = e /\ r' = f r).
Proof.
  unfold upd_rec. rewrite in_map_iff. intros (r & Hr' & Hin).
  destruct (Z.eqb_spec (rec_ptr r) e); subst; eauto.
Qed.

Lemma in_upd_rec_other e f rs r :
  In r rs -> rec_ptr r <> e -> In r (upd_rec e f rs).
Proof.
  intros Hin Hne. unfold upd_rec. apply in_map_iff. exists r.
  apply Z.eqb_neq in Hne. now rewrite Hne.
Qed.

Lemma in_upd_rec_same e f rs r :
  In r rs -> rec_ptr r = e -> In (f r) (upd_rec e f rs).
Proof.
  intros Hin Heq. unfold upd_rec. apply in_map_iff. exists r.
  apply Z.eqb_eq in Heq. now rewrite Heq.
Qed.

(** An update that keeps the position and the length of the record keeps
    the records in place. *)
Lemma upd_rec_shape e f rs :
  (forall r, rec_pos (f r) = rec_pos r /\ rec_len (f r) = rec_len r) ->
  map (fun r => (rec_pos r, rec_len r)) (upd_rec e f rs)
  = map (fun r => (rec_pos r, rec_len r)) rs.
Proof.
  intros Hf. unfold upd_rec. rewrite map_map. apply map_ext. intros r.
  destruct (rec_ptr r =? e); [|reflexivity].
  now destruct (Hf r) as [-> ->].
Qed.

Lemma forall_same_shape (P : Z -> Z -> Prop) rs rs' :
  map (fun r => (rec_pos r, rec_len r)) rs'
  = map (fun r => (rec_pos r, rec_len r)) rs ->
  Forall (fun r => P (rec_pos r) (rec_len r)) rs ->
  Forall (fun r => P (rec_pos r) (rec_len r)) rs'.
Proof.
  revert rs'. induction rs as [|r rs IH]; intros [|r' rs'] Hm H;
    try discriminate Hm; constructor; inversion H; subst;
    injection Hm as Hp Hl Hm.
  - now rewrite Hp, Hl.
  - now apply IH.
Qed.

Lemma sorted_same_shape rs rs' :
  map (fun r => (rec_pos r, rec_len r)) rs'
  = map (fun r => (rec_pos r, rec_len r)) rs ->
  StronglySorted rec_before rs -> StronglySorted rec_before rs'.
Proof.
  intros Hm Hs. revert rs' Hm.
  induction Hs as [|r rs Hs IH Hr]; intros [|r' rs'] Hm; try discriminate Hm;
    constructor; injection Hm as Hp Hl Hm.
  - now apply IH.
  - unfold rec_before, rec_ptr in *. rewrite Hp, Hl.
    exact (forall_same_shape
             (fun p _ => rec_pos r + BPF_RINGBUF_HDR_SZ + rec_len r <= p)
             rs rs' Hm Hr).
Qed.

Lemma sorted_suffix (a b : list rb_record) :
  StronglySorted rec_before (a ++ b) -> StronglySorted rec_before b.
Proof.
  induction a as [|r a IH]; [auto|]. cbn [app]. intros H.
  apply IH. now inversion H.
Qed.

Lemma sorted_push rs r pos :
  StronglySorted rec_before rs ->
  Forall (fun a => rec_ptr a + rec_len a <= pos) rs ->
  rec_pos r = pos ->
  StronglySorted rec_before (rs ++ [r]).
Proof.
  intros Hs Hb Hpos. induction Hs as [|a rs Hs IH Ha]; cbn [app].
  - repeat constructor.
  - inversion Hb as [|? ? Hba Hbrs]; subst. constructor; [now apply IH|].
    apply Forall_app. split; [exact Ha|]. now repeat constructor.
Qed.

Lemma take_ready_ready rs :
  Forall (fun r => rec_busy r = false) (fst (take_ready rs)).
Proof.
  induction rs as [|r rs IH]; [constructor|]. cbn [take_ready].
  destruct (rec_busy r) eqn:E; [constructor|].
  destruct (take_ready rs) as [ready rest]. cbn [fst] in *. now constructor.
Qed.

(** A poll leaves every busy record in the ring buffer. *)
Lemma take_ready_keeps_busy rs r :
  In r rs -> rec_busy r = true -> In r (snd (take_ready rs)).
Proof.
  intros Hin Hbusy.
  pose proof (take_ready_split rs) as Hs. rewrite <- Hs in Hin.
  apply in_app_or in Hin as [Hin | Hin]; [|exact Hin].
  pose proof (take_ready_ready rs) as Hr. rewrite Forall_forall in Hr.
  specialize (Hr _ Hin). congruence.
Qed.

(** ** The phases of a run *)

Lemma held_impl rs rs' e (P : list byte -> Prop) :
  (forall r, In r rs -> rec_ptr r = e -> rec_busy r = true -> In r rs') ->
  held rs e P -> held rs' e P.
Proof.
  intros H (r & Hin & Hptr & Hbusy & Hrest). exists r. auto.
Qed.

Lemma phase_ok_impl bo rs rs' ph :
  (forall r e, In e (slot_of ph) ->
               In r rs -> rec_ptr r = e -> rec_busy r = true -> In r rs') ->
  phase_ok bo rs ph -> phase_ok bo rs' ph.
Proof.
  intros H. destruct ph as [ctx | e ctx | e v ctx | e v ctx | e v ctx | ];
    cbn [phase_ok slot_of] in *; auto;
    intros [Hc Hh]; (split; [exact Hc|]);
    (eapply held_impl; [|exact Hh]); intros r; apply H; now left.
Qed.

Lemma slot_held bo rs ph e :
  phase_ok bo rs ph -> In e (slot_of ph) -> held rs e (fun _ => True).
Proof.
  destruct ph as [ctx | e' ctx | e' v ctx | e' v ctx | e' v ctx | ];
    cbn [phase_ok slot_of]; intros H Hin;
    try (now destruct Hin);
    destruct Hin as [<- | []];
    destruct H as (_ & r & Hr & Hp & Hb & Hl & _); exists r; auto.
Qed.

(** The slots of the other runs differ from the slot of this one. *)
Lemma other_slots (phs1 phs2 : list phase) ph0 ph e :
  NoDup (flat_map slot_of (phs1 ++ ph0 :: phs2)) ->
  slot_of ph0 = [e] ->
  In ph (phs1 ++ phs2) -> ~ In e (slot_of ph).
Proof.
  intros Hnd Hs Hin He.
  rewrite flat_map_app in Hnd. cbn [flat_map] in Hnd. rewrite Hs in Hnd.
  cbn [app] in Hnd. apply NoDup_remove_2 in Hnd. apply Hnd.
  rewrite <- flat_map_app. apply in_flat_map. eauto.
Qed.

Lemma phases_impl (A : cpu -> phase -> Prop) bo rs rs' cpus phs :
  (forall ph, In ph phs -> phase_ok bo rs ph -> phase_ok bo rs' ph) ->
  Forall2 (fun c ph => A c ph /\ phase_ok bo rs ph) cpus phs ->
  Forall2 (fun c ph => A c ph /\ phase_ok bo rs' ph) cpus phs.
Proof.
  intros H F. induction F as [|c ph cpus phs [Ha Hp] F IH]; constructor.
  - split; [exact Ha|]. apply H; [now left | exact Hp].
  - apply IH. intros ph' Hin. apply H. now right.
Qed.

(** What one step of the probe does in each phase. *)
Lemma step_started ctx k :
  prog_step kernel_handle (rest_of (Started ctx)) k =
  if trace_event_raw_kfree_skb.reason ctx <=? 1 then None
  else if full (events_rb k) then Some (rest_of Finished, k)
  else Some (rest_of (Reserved (producer_pos (events_rb k)
                                + BPF_RINGBUF_HDR_SZ) ctx),
             with_rb k
               (reserving (events_rb k)
                  (map (fun i => fresh k (producer_pos (events_rb k)
                                          + BPF_RINGBUF_HDR_SZ + Z.of_nat i))
                       (seq 0 8)))).
Proof.
  cbn [rest_of]. unfold trace_tcp_drop.
  destruct (trace_event_raw_kfree_skb.reason ctx <=? 1); [reflexivity|].
  cbn [bind ret Monad_prog prog_bind call prog_step].
  rewrite reserve_event.
  destruct (full (events_rb k)); reflexivity.
Qed.

Lemma step_reserved e ctx k :
  prog_step kernel_handle (rest_of (Reserved e ctx)) k
  = Some (rest_of (Identified e (u64 (current_pid_tgid k)) ctx), k).
Proof. reflexivity. Qed.

Lemma step_identified e v ctx k :
  StronglySorted rec_before (records (events_rb k)) ->
  held (records (events_rb k)) e (fun _ => True) ->
  prog_step kernel_handle (rest_of (Identified e v ctx)) k
  = Some (rest_of (PidStored e v ctx),
          with_rb k
            (with_records (events_rb k)
               (upd_rec e
                  (set_data (mem_write event.pid_offset
                               (int_bytes (byte_order k) 4
                                  (u32 (Z.shiftr v 32)))))
                  (records (events_rb k))))).
Proof.
  intros Hs Hh.
  cbn [rest_of pid_rest bind ret Monad_prog prog_bind call prog_step
       kernel_handle].
  change (Z.to_nat (sizeof U32)) with 4%nat.
  rewrite store_records_upd;
    [ reflexivity | exact Hs | exact Hh | cbn; lia
      | rewrite length_int_bytes; cbn; lia ].
Qed.

Lemma step_pid_stored e v ctx k :
  StronglySorted rec_before (records (events_rb k)) ->
  held (records (events_rb k)) e (fun _ => True) ->
  prog_step kernel_handle (rest_of (PidStored e v ctx)) k
  = Some (rest_of (Filled e v ctx),
          with_rb k
            (with_records (events_rb k)
               (upd_rec e
                  (set_data (mem_write event.reason_offset
                               (int_bytes (byte_order k) 4
                                  (u32 (trace_event_raw_kfree_skb.reason ctx)))))
                  (records (events_rb k))))).
Proof.
  intros Hs Hh.
  cbn [rest_of reason_rest bind ret Monad_prog prog_bind call prog_step
       kernel_handle].
  change (Z.to_nat (sizeof U32)) with 4%nat.
  rewrite store_records_upd;
    [ reflexivity | exact Hs | exact Hh | cbn; lia
      | rewrite length_int_bytes; cbn; lia ].
Qed.

Lemma step_filled e v ctx k :
  StronglySorted rec_before (records (events_rb k)) ->
  held (records (events_rb k)) e (fun _ => True) ->
  prog_step kernel_handle (rest_of (Filled e v ctx)) k
  = Some (rest_of Finished,
          with_rb k
            (with_records (events_rb k)
               (upd_rec e set_committed (records (events_rb k))))).
Proof.
  intros Hs Hh.
  cbn [rest_of submit_rest bind ret Monad_prog prog_bind call prog_step
       kernel_handle].
  rewrite commit_records_upd; [reflexivity | exact Hs | exact Hh].
Qed.

(** ** The invariant of the system *)

Lemma rb_wf_push_any rb r :
  rb_wf rb -> rec_pos r = producer_pos rb -> rec_len r = sizeof_event ->
  rb_wf (push rb r).
Proof.
  intros [Hc Hr] Hpos Hlen. split; cbn [push consumer_pos producer_pos records].
  - rewrite event_span_16. lia.
  - apply Forall_app. split.
    + eapply Forall_impl; [|exact Hr]. cbn beta. intros a H.
      rewrite event_span_16. lia.
    + constructor; [|constructor].
      unfold rec_ptr, BPF_RINGBUF_HDR_SZ.
      rewrite Hpos, Hlen, sizeof_event_8, event_span_16. lia.
Qed.

Section Update.

(** The records of a kernel that satisfies the invariant, updated at the
    busy record [r0] by an [f] that leaves position and length alone. *)
Variables (bo : endianness) (rb : ringbuf) (e : ptr)
          (f : rb_record -> rb_record) (r0 : rb_record).
Hypothesis Hwf : rb_wf rb.
Hypothesis Hsorted : StronglySorted rec_before (records rb).
Hypothesis Hlen : Forall (fun r => rec_len r = sizeof_event) (records rb).
Hypothesis Hdone :
  Forall (fun r => rec_busy r = false -> from_probe bo r) (records rb).
Hypothesis Hin : In r0 (records rb).
Hypothesis Hptr : rec_ptr r0 = e.
Hypothesis Hshape :
  forall r, rec_pos (f r) = rec_pos r /\ rec_len (f r) = rec_len r.
Hypothesis Hf : rec_busy (f r0) = false -> from_probe bo (f r0).

Lemma update_wf : rb_wf (with_records rb (upd_rec e f (records rb))).
Proof.
  destruct Hwf as [Hc Hr]. split; [exact Hc|].
  cbn [with_records producer_pos records].
  refine (forall_same_shape
            (fun p l => p + BPF_RINGBUF_HDR_SZ + l <= producer_pos rb)
            _ _ (upd_rec_shape e f _ Hshape) Hr).
Qed.

Lemma update_sorted : StronglySorted rec_before (upd_rec e f (records rb)).
Proof.
  exact (sorted_same_shape _ _ (upd_rec_shape e f _ Hshape) Hsorted).
Qed.

Lemma update_len :
  Forall (fun r => rec_len r = sizeof_event) (upd_rec e f (records rb)).
Proof.
  exact (forall_same_shape (fun _ l => l = sizeof_event)
           _ _ (upd_rec_shape e f _ Hshape) Hlen).
Qed.

Lemma update_done :
  Forall (fun r => rec_busy r = false -> from_probe bo r)
         (upd_rec e f (records rb)).
Proof.
  apply Forall_forall. intros r' Hr'.
  rewrite Forall_forall in Hdone.
  apply in_upd_rec in Hr' as [[Hr' _] | (r & Hr & Hre & ->)]; [auto|].
  assert (r = r0) as -> by
    (apply (sorted_ptr_unique (records rb)); auto; congruence).
  exact Hf.
Qed.

(** The other runs keep what they hold. *)
Lemma update_phases (A : cpu -> phase -> Prop) cpus phs :
  (forall ph, In ph phs -> ~ In e (slot_of ph)) ->
  Forall2 (fun c ph => A c ph /\ phase_ok bo (records rb) ph) cpus phs ->
  Forall2 (fun c ph => A c ph /\ phase_ok bo (upd_rec e f (records rb)) ph)
          cpus phs.
Proof.
  intros Hother. apply phases_impl. intros ph Hph.
  apply phase_ok_impl. intros r e' He' Hr Hre' _.
  apply in_upd_rec_other; [exact Hr|].
  intros Heq. apply (Hother ph Hph). congruence.
Qed.

End Update.

Lemma set_data_shape d r :
  (forall bs, List.length (d bs) = List.length bs) ->
  rec_pos (set_data d r) = rec_pos r /\ rec_len (set_data d r) = rec_len r.
Proof. intros H. unfold rec_len, set_data. cbn. now rewrite H. Qed.

Lemma attach_inv bo task mem k :
  attach bo task mem = Some k -> sys_inv {| sys_kernel := k; sys_cpus := [] |}.
Proof.
  unfold attach. cbn. intros [= <-]. unfold sys_inv.
  cbn [sys_kernel sys_cpus events_rb records byte_order faulted].
  split; [split; [cbn; lia | constructor]|].
  split; [constructor|]. split; [reflexivity|].
  split; [constructor|]. split; [constructor|].
  exists []. split; [constructor|]. split; constructor.
Qed.

Lemma fire_inv k cpus f :
  firing_valid f ->
  sys_inv {| sys_kernel := k; sys_cpus := cpus |} ->
  sys_inv {| sys_kernel := on_task (by_task f) k;
             sys_cpus := cpus ++ [{| cpu_task := by_task f;
                                     cpu_rest := trace_tcp_drop (on_ctx f) |}] |}.
Proof.
  intros [Hc _] (Hwf & Hs & Hfl & Hlen & Hdone & phs & Hphs & Hnd & Hown).
  unfold sys_inv.
  cbn [sys_kernel sys_cpus on_task events_rb byte_order faulted] in *.
  refine (conj Hwf (conj Hs (conj Hfl (conj Hlen (conj Hdone _))))).
  exists (phs ++ [Started (on_ctx f)]).
  rewrite flat_map_app. cbn [flat_map slot_of app]. rewrite app_nil_r.
  split; [|split; assumption].
  apply Forall2_app; [exact Hphs|]. constructor; [|constructor].
  split; [reflexivity | exact Hc].
Qed.

(** A run that has returned holds no slot. *)
Lemma returned_slot ph r : rest_of ph = Ret r -> slot_of ph = [].
Proof. destruct ph; try reflexivity; discriminate. Qed.

Lemma return_inv k before c after r :
  cpu_rest c = Ret r ->
  sys_inv {| sys_kernel := k; sys_cpus := before ++ c :: after |} ->
  sys_inv {| sys_kernel := k; sys_cpus := before ++ after |}.
Proof.
  intros Hret (Hwf & Hs & Hfl & Hlen & Hdone & phs & Hphs & Hnd & Hown).
  unfold sys_inv. cbn [sys_kernel sys_cpus] in *.
  refine (conj Hwf (conj Hs (conj Hfl (conj Hlen (conj Hdone _))))).
  apply Forall2_app_inv_l in Hphs as (phs1 & phs' & H1 & H2 & ->).
  inversion H2 as [|? ph ? phs2 [Hrest _] H2']; subst.
  rewrite Hret in Hrest. symmetry in Hrest. apply returned_slot in Hrest.
  exists (phs1 ++ phs2).
  rewrite flat_map_app in *. cbn [flat_map] in Hnd, Hown.
  rewrite Hrest in Hnd, Hown. cbn [app] in Hnd, Hown.
  split; [now apply Forall2_app|]. split; assumption.
Qed.

Lemma poll_inv k cpus :
  sys_inv {| sys_kernel := k; sys_cpus := cpus |} ->
  sys_inv {| sys_kernel := snd (Collector.poll k); sys_cpus := cpus |}.
Proof.
  intros (Hwf & Hs & Hfl & Hlen & Hdone & phs & Hphs & Hnd & Hown).
  unfold sys_inv. cbn [sys_kernel sys_cpus] in *.
  unfold Collector.poll.
  pose proof (rb_wf_consume _ Hwf) as Hwf'.
  pose proof (take_ready_keeps_busy (records (events_rb k))) as Hbusy.
  unfold ringbuf_consume in *.
  pose proof (take_ready_split (records (events_rb k))) as Hsplit.
  destruct (take_ready (records (events_rb k))) as [ready rest].
  cbn [fst snd with_rb events_rb records byte_order faulted] in *.
  rewrite <- Hsplit in Hs, Hlen, Hdone, Hown.
  apply sorted_suffix in Hs.
  apply Forall_app in Hlen as [_ Hlen], Hdone as [_ Hdone], Hown as [_ Hown].
  refine (conj Hwf' (conj Hs (conj Hfl (conj Hlen (conj Hdone _))))).
  exists phs. split; [|split; assumption].
  eapply phases_impl; [|exact Hphs].
  intros ph _. apply phase_ok_impl. intros r e _ Hr _ Hb. now apply Hbusy.
Qed.

Lemma NoDup_insert (A : Type) (l l' : list A) (a : A) :
  NoDup (l ++ l') -> ~ In a (l ++ l') -> NoDup (l ++ a :: l').
Proof.
  induction l as [|b l IH]; cbn [app]; intros Hnd Hin.
  - now constructor.
  - inversion Hnd as [|? ? Hb Hnd']; subst. constructor.
    + intros Hb'. apply in_app_or in Hb' as [Hb' | [-> | Hb']].
      * apply Hb, in_or_app. now left.
      * apply Hin. now left.
      * apply Hb, in_or_app. now right.
    + apply IH; [exact Hnd'|]. intros H. apply Hin. now right.
Qed.

Lemma phases_in (A : cpu -> phase -> Prop) (P : phase -> Prop) cpus phs ph :
  Forall2 (fun c ph => A c ph /\ P ph) cpus phs -> In ph phs -> P ph.
Proof.
  induction 1 as [|c ph' cpus phs [_ Hp] _ IH]; intros Hin;
    [destruct Hin|].
  destruct Hin as [<- | Hin]; auto.
Qed.

(** The run that holds the slot [e] updates its record and moves from
    phase [ph0] to phase [ph']. *)
Lemma update_inv k task before after phs1 ph0 phs2 e f r0 ph' :
  let rs := records (events_rb k) in
  let k' := with_rb (on_task task k)
              (with_records (events_rb k) (upd_rec e f rs)) in
  rb_wf (events_rb k) ->
  StronglySorted rec_before rs ->
  faulted k = false ->
  Forall (fun r => rec_len r = sizeof_event) rs ->
  Forall (fun r => rec_busy r = false -> from_probe (byte_order k) r) rs ->
  Forall2 (fun c ph => cpu_rest c = rest_of ph
                       /\ phase_ok (byte_order k) rs ph) before phs1 ->
  Forall2 (fun c ph => cpu_rest c = rest_of ph
                       /\ phase_ok (byte_order k) rs ph) after phs2 ->
  NoDup (flat_map slot_of (phs1 ++ ph0 :: phs2)) ->
  Forall (fun r => rec_busy r = true
                   -> In (rec_ptr r) (flat_map slot_of (phs1 ++ ph0 :: phs2)))
         rs ->
  slot_of ph0 = [e] ->
  In r0 rs -> rec_ptr r0 = e ->
  (forall r, rec_pos (f r) = rec_pos r /\ rec_len (f r) = rec_len r) ->
  (rec_busy (f r0) = false -> from_probe (byte_order k) (f r0)) ->
  phase_ok (byte_order k) (upd_rec e f rs) ph' ->
  slot_of ph' = [e] \/ (slot_of ph' = [] /\ rec_busy (f r0) = false) ->
  sys_inv {| sys_kernel := k';
             sys_cpus := before ++ {| cpu_task := task;
                                      cpu_rest := rest_of ph' |} :: after |}.
Proof.
  intros rs k' Hwf Hs Hfl Hlen Hdone H1 H2 Hnd Hown Hslot Hin Hptr Hshape Hf
         Hph' Hslot'.
  unfold sys_inv, k'.
  cbn [sys_kernel sys_cpus with_rb on_task events_rb byte_order faulted
       with_records records].
  split; [now apply update_wf|].
  split; [now apply update_sorted|].
  split; [exact Hfl|].
  split; [now apply update_len|].
  split; [now apply (update_done _ _ _ _ r0)|].
  assert (Hother : forall ph, In ph (phs1 ++ phs2) -> ~ In e (slot_of ph))
    by (intros ph; now apply (other_slots phs1 phs2 ph0)).
  exists (phs1 ++ ph' :: phs2). split; [|split].
  - apply Forall2_app.
    + apply update_phases; [|exact H1].
      intros ph Hph. apply Hother, in_or_app. now left.
    + constructor; [split; [reflexivity | exact Hph']|].
      apply update_phases; [|exact H2].
      intros ph Hph. apply Hother, in_or_app. now right.
  - rewrite flat_map_app in *. cbn [flat_map] in *. rewrite Hslot in Hnd.
    destruct Hslot' as [-> | [-> _]]; [exact Hnd|].
    cbn [app] in *. now apply NoDup_remove_1 in Hnd.
  - rewrite flat_map_app in *. cbn [flat_map] in *. rewrite Hslot in Hown.
    rewrite Forall_forall in Hown |- *. intros r' Hr' Hbusy.
    apply in_upd_rec in Hr' as [[Hr' Hne] | (r & Hr & Hre & ->)].
    + specialize (Hown r' Hr' Hbusy).
      apply in_app_or in Hown as [Ho | Ho]; [apply in_or_app; now left|].
      apply in_app_or in Ho as [[Ho | []] | Ho]; [congruence|].
      apply in_or_app. right. apply in_or_app. now right.
    + assert (r = r0) as -> by
        (apply (sorted_ptr_unique rs); auto; congruence).
      assert (Hp : rec_ptr (f r0) = e)
        by (unfold rec_ptr in *; now rewrite (proj1 (Hshape r0))).
      rewrite Hp. destruct Hslot' as [-> | [_ Hnb]]; [|congruence].
      apply in_or_app. right. now left.
Qed.

Lemma op_inv k before c after p' k' :
  prog_step kernel_handle (cpu_rest c) (on_task (cpu_task c) k)
  = Some (p', k') ->
  sys_inv {| sys_kernel := k; sys_cpus := before ++ c :: after |} ->
  sys_inv {| sys_kernel := k';
             sys_cpus := before ++ {| cpu_task := cpu_task c;
                                      cpu_rest := p' |} :: after |}.
Proof.
  intros Hstep (Hwf & Hs & Hfl & Hlen & Hdone & phs & Hphs & Hnd & Hown).
  unfold sys_inv. cbn [sys_kernel sys_cpus] in *.
  apply Forall2_app_inv_l in Hphs as (phs1 & phs' & H1 & H2 & ->).
  inversion H2 as [|? ph ? phs2 [Hrest Hph] H2']; subst. clear H2.
  rewrite Hrest in Hstep. clear Hrest.
  set (k0 := on_task (cpu_task c) k) in *.
  assert (Hwf0 : rb_wf (events_rb k0)) by exact Hwf.
  assert (Hs0 : StronglySorted rec_before (records (events_rb k0))) by exact Hs.
  destruct ph as [ctx | e ctx | e v ctx | e v ctx | e v ctx | ].
  - (* the reservation *)
    rewrite step_started in Hstep.
    destruct (trace_event_raw_kfree_skb.reason ctx <=? 1) eqn:Er;
      [discriminate Hstep|].
    apply Z.leb_gt in Er.
    destruct (full (events_rb k0));
      [ injection Hstep as <- <-
      | set (d0 := map _ (seq 0 8)) in Hstep;
        assert (Hd0 : List.length d0 = 8%nat) by reflexivity;
        clearbody d0; injection Hstep as <- <- ].
    + refine (conj Hwf (conj Hs (conj Hfl (conj Hlen (conj Hdone _))))).
      exists (phs1 ++ Finished :: phs2). split; [|split].
      * apply Forall2_app; [exact H1|]. constructor; [|exact H2'].
        split; [reflexivity | exact I].
      * rewrite flat_map_app in *. exact Hnd.
      * rewrite flat_map_app in *. exact Hown.
    + set (e := producer_pos (events_rb k0) + BPF_RINGBUF_HDR_SZ).
      set (r := {| rec_pos := producer_pos (events_rb k0);
                   rec_busy := true; rec_discard := false; rec_data := d0 |}).
      assert (Hrlen : rec_len r = sizeof_event)
        by (unfold rec_len; cbn [r rec_data]; now rewrite Hd0).
      cbn [with_rb events_rb byte_order faulted].
      change (reserving (events_rb k0) d0) with (push (events_rb k0) r).
      cbn [push records].
      split; [now apply rb_wf_push_any|].
      split; [apply (sorted_push _ _ (producer_pos (events_rb k0)));
              [exact Hs | exact (proj2 Hwf) | reflexivity]|].
      split; [exact Hfl|].
      split; [apply Forall_app; split; [exact Hlen | now repeat constructor]|].
      split; [apply Forall_app; split; [exact Hdone|];
              constructor; [discriminate | constructor]|].
      assert (Hkeep : forall ph,
                 phase_ok (byte_order k) (records (events_rb k)) ph ->
                 phase_ok (byte_order k) (records (events_rb k) ++ [r]) ph).
      { intros ph. apply phase_ok_impl. intros a _ _ Ha _ _.
        apply in_or_app. now left. }
      exists (phs1 ++ Reserved e ctx :: phs2). split; [|split].
      * apply Forall2_app.
        -- eapply phases_impl; [|exact H1]. intros ph _. apply Hkeep.
        -- constructor.
           ++ split; [reflexivity|]. split; [split; [exact Hph | exact Er]|].
              exists r. split; [apply in_or_app; right; now left|].
              repeat split. exact Hd0.
           ++ eapply phases_impl; [|exact H2']. intros ph _. apply Hkeep.
      * rewrite flat_map_app in *. cbn [flat_map slot_of app] in *.
        apply NoDup_insert; [exact Hnd|].
        rewrite <- flat_map_app. intros Hin.
        apply in_flat_map in Hin as (ph & Hin & He).
        assert (Hok : phase_ok (byte_order k) (records (events_rb k)) ph).
        { apply in_app_or in Hin as [Hin | Hin].
          - exact (phases_in _ _ _ _ _ H1 Hin).
          - exact (phases_in _ _ _ _ _ H2' Hin). }
        destruct (slot_held _ _ _ _ Hok He) as (a & Ha & Hptr & _).
        destruct Hwf as [_ Hb]. rewrite Forall_forall in Hb.
        specialize (Hb a Ha). pose proof (rec_len_nonneg a).
        unfold e, rec_ptr, BPF_RINGBUF_HDR_SZ in *. cbn [k0 on_task events_rb] in *.
        lia.
      * rewrite flat_map_app in *. cbn [flat_map slot_of app] in *.
        apply Forall_app. split.
        -- eapply Forall_impl; [|exact Hown]. cbn beta. intros a Ha Hb.
           specialize (Ha Hb). apply in_app_or in Ha as [Ha | Ha];
             apply in_or_app; [now left | right; now right].
        -- constructor; [|constructor]. intros _.
           apply in_or_app. right. now left.
  - (* the read of the task identifier *)
    rewrite step_reserved in Hstep. injection Hstep as <- <-.
    refine (conj Hwf (conj Hs (conj Hfl (conj Hlen (conj Hdone _))))).
    exists (phs1 ++ Identified e (u64 (current_pid_tgid k0)) ctx :: phs2).
    split; [|split].
    + apply Forall2_app; [exact H1|]. constructor; [|exact H2'].
      split; [reflexivity | exact Hph].
    + rewrite flat_map_app in *. exact Hnd.
    + rewrite flat_map_app in *. exact Hown.
  - (* the store of pid *)
    destruct Hph as (Hctx & r0 & Hin & Hptr & Hbusy & Hlen0 & _).
    assert (Hheld : held (records (events_rb k0)) e (fun _ => True))
      by (exists r0; auto).
    rewrite (step_identified _ _ _ _ Hs0 Hheld) in Hstep.
    injection Hstep as <- <-.
    apply (update_inv k (cpu_task c) before after phs1
             (Identified e v ctx) phs2 e _ r0 (PidStored e v ctx)
             Hwf Hs Hfl Hlen Hdone H1 H2' Hnd Hown eq_refl Hin Hptr).
    + intros r. apply set_data_shape. intros bs. apply length_write.
    + cbn [set_data rec_busy]. congruence.
    + split; [exact Hctx|]. eexists. split; [apply (in_upd_rec_same _ _ _ r0); assumption|].
      cbn [set_data rec_busy rec_data]. rewrite length_write.
      repeat split; auto. exists (rec_data r0). auto.
    + now left.
  - (* the store of reason *)
    destruct Hph as (Hctx & r0 & Hin & Hptr & Hbusy & Hlen0 & d0 & Hd0 & Hdata).
    assert (Hheld : held (records (events_rb k0)) e (fun _ => True))
      by (exists r0; auto).
    rewrite (step_pid_stored _ _ _ _ Hs0 Hheld) in Hstep.
    injection Hstep as <- <-.
    apply (update_inv k (cpu_task c) before after phs1
             (PidStored e v ctx) phs2 e _ r0 (Filled e v ctx)
             Hwf Hs Hfl Hlen Hdone H1 H2' Hnd Hown eq_refl Hin Hptr).
    + intros r. apply set_data_shape. intros bs. apply length_write.
    + cbn [set_data rec_busy]. congruence.
    + split; [exact Hctx|]. eexists. split; [apply (in_upd_rec_same _ _ _ r0); assumption|].
      cbn [set_data rec_busy rec_data]. rewrite length_write.
      repeat split; auto. rewrite Hdata.
      exact (assign_image (byte_order k) (event_in v ctx) d0 Hd0).
    + now left.
  - (* the submit *)
    destruct Hph as (Hctx & r0 & Hin & Hptr & Hbusy & Hlen0 & Hdata).
    assert (Hheld : held (records (events_rb k0)) e (fun _ => True))
      by (exists r0; auto).
    rewrite (step_filled _ _ _ _ Hs0 Hheld) in Hstep.
    injection Hstep as <- <-.
    apply (update_inv k (cpu_task c) before after phs1
             (Filled e v ctx) phs2 e _ r0 Finished
             Hwf Hs Hfl Hlen Hdone H1 H2' Hnd Hown eq_refl Hin Hptr).
    + intros r. split; reflexivity.
    + intros _. split; [reflexivity|]. split; [reflexivity|].
      exists (event_in v ctx). split; [split; apply u32_range|].
      split; [|exact Hdata]. destruct Hctx as [Hv Hr].
      cbn [event_in event.reason]. now rewrite (u32_id _ Hv).
    + exact I.
    + right. split; reflexivity.
  - (* returned *)
    discriminate Hstep.
Qed.

(** Every step keeps the invariant, so every reachable system has it. *)
Lemma sys_reachable_inv s : sys_reachable s -> sys_inv s.
Proof.
  induction 1 as [bo task mem k Hk | s s' _ IH Hstep].
  - now apply (attach_inv bo task mem).
  - destruct Hstep as [k cpus f Hf | k before c after p' k' Hp
                       | k before c after r Hr | k cpus].
    + now apply fire_inv.
    + now apply (op_inv k).
    + now apply (return_inv k before c after r).
    + now apply poll_inv.
Qed.

(** ** What the consumer is handed in a reachable system *)

Lemma ready_in rs r : In r (fst (take_ready rs)) -> In r rs.
Proof.
  intros H. rewrite <- (take_ready_split rs). apply in_or_app. now left.
Qed.

(** The records handed to the consumer were submitted by the probe. *)
Lemma ready_from_probe s :
  sys_inv s ->
  Forall (from_probe (byte_order (sys_kernel s)))
         (fst (take_ready (records (events_rb (sys_kernel s))))).
Proof.
  intros (_ & _ & _ & _ & Hdone & _).
  pose proof (take_ready_ready (records (events_rb (sys_kernel s)))) as Hr.
  rewrite Forall_forall in *. intros r Hin.
  apply Hdone; [now apply ready_in | now apply Hr].
Qed.

Lemma visible_sys s :
  sys_inv s ->
  visible (events_rb (sys_kernel s))
  = map rec_data (fst (take_ready (records (events_rb (sys_kernel s))))).
Proof.
  intros Hinv. rewrite visible_eq.
  exact (samples_from_probe _ _ (ready_from_probe s Hinv)).
Qed.

Lemma received_sys s :
  sys_inv s ->
  Collector.received (sys_kernel s)
  = map (fun r => event.read (byte_order (sys_kernel s)) (rec_data r))
        (fst (take_ready (records (events_rb (sys_kernel s))))).
Proof.
  intros Hinv. pose proof (ready_from_probe s Hinv) as Hr.
  unfold Collector.received, Collector.poll, ringbuf_consume.
  destruct (take_ready (records (events_rb (sys_kernel s)))) as [ready rest].
  cbn [fst] in *. now apply decode_all_from_probe.
Qed.

(** With no run under way, no reservation is pending. *)
Lemma idle_quiescent s :
  sys_inv s -> sys_cpus s = [] -> quiescent (events_rb (sys_kernel s)).
Proof.
  intros (_ & _ & _ & _ & _ & phs & Hphs & _ & Hown) Hidle.
  rewrite Hidle in Hphs. inversion Hphs; subst. cbn [flat_map] in Hown.
  eapply Forall_impl; [|exact Hown]. cbn beta. intros r Hr.
  destruct (rec_busy r); [now destruct Hr | reflexivity].
Qed.

(** ** Firings that run to their end are steps of the system *)

Lemma task_kernel_handle X (o : op X) k :
  current_pid_tgid (snd (kernel_handle X o k)) = current_pid_tgid k.
Proof.
  destruct o; cbn [kernel_handle].
  - now destruct (ringbuf_reserve _ _ _ _).
  - now destruct (commit_records _ _ _).
  - now destruct (commit_records _ _ _).
  - reflexivity.
  - now destruct (store_records _ _ _).
Qed.

Lemma on_task_same k : on_task (current_pid_tgid k) k = k.
Proof. now destruct k. Qed.

Lemma run_steps (p : prog Z) k before after :
  sys_reachable {| sys_kernel := k;
                   sys_cpus := before ++ {| cpu_task := current_pid_tgid k;
                                            cpu_rest := p |} :: after |} ->
  sys_reachable {| sys_kernel := final kernel_handle p k;
                   sys_cpus := before ++ after |}.
Proof.
  revert k. induction p as [a | X o kont IH]; intros k Hs.
  - eapply sys_next; [exact Hs|].
    now apply (step_return k before _ after a).
  - unfold final. cbn [run].
    destruct (kernel_handle X o k) as [x k1] eqn:E.
    specialize (IH x k1). unfold final in IH.
    destruct (run kernel_handle (kont x) k1) as [[a k2] log]. cbn [fst snd] in *.
    apply IH. clear IH.
    pose proof (task_kernel_handle X o k) as Ht. rewrite E in Ht.
    cbn [snd] in Ht. rewrite Ht.
    eapply sys_next; [exact Hs|].
    apply (step_op k before
             {| cpu_task := current_pid_tgid k; cpu_rest := Call o kont |} after).
    cbn [cpu_task cpu_rest prog_step]. now rewrite on_task_same, E.
Qed.

Lemma reachable_sys k :
  reachable k -> sys_reachable {| sys_kernel := k; sys_cpus := [] |}.
Proof.
  induction 1 as [bo task mem k Hk | k f _ IH Hf | k _ IH].
  - now apply (sys_attach bo task mem).
  - apply (run_steps (trace_tcp_drop (on_ctx f)) (on_task (by_task f) k) [] []).
    eapply sys_next; [exact IH|].
    exact (step_fire k [] f Hf).
  - eapply sys_next; [exact IH|]. apply step_poll.
Qed.

(** ** Schedules *)

Lemma firing_ok_valid f : firing_ok f = true -> firing_valid f.
Proof.
  unfold firing_ok, firing_valid, trace_event_raw_kfree_skb.valid,
    is_u32, is_u64.
  intros H. repeat (apply andb_true_iff in H as [H ?]).
  repeat match goal with
         | H : (_ <=? _) = true |- _ => apply Z.leb_le in H
         | H : (_ <? _) = true |- _ => apply Z.ltb_lt in H
         end.
  auto.
Qed.

Lemma act_step a s s' : act a s = Some s' -> sys_step s s'.
Proof.
  destruct s as [k cpus]. destruct a as [f | i | ]; cbn [act sys_kernel sys_cpus].
  - destruct (firing_ok f) eqn:Ef; [|discriminate]. intros [= <-].
    apply step_fire. now apply firing_ok_valid.
  - unfold advance. cbn [sys_kernel sys_cpus].
    destruct (nth_error cpus i) as [c|] eqn:Ec; [|discriminate].
    rewrite <- (firstn_skipn_middle _ _ Ec) at 1.
    destruct (prog_step _ _ _) as [[p' k']|] eqn:Ep; intros [= <-].
    + now apply step_op.
    + destruct (cpu_rest c) as [r | X o kont] eqn:Er.
      * now apply (step_return k (firstn i cpus) c (skipn (S i) cpus) r).
      * cbn [prog_step] in Ep. now destruct (kernel_handle X o _).
  - intros [= <-]. apply step_poll.
Qed.

(** What a schedule leads to is reachable. *)
Lemma schedule_reachable acts s s' :
  sys_reachable s -> schedule acts s = Some s' -> sys_reachable s'.
Proof.
  revert s. induction acts as [|a acts IH]; cbn [schedule]; intros s Hs.
  - now intros [= <-].
  - destruct (act a s) as [s1|] eqn:Ea; [|discriminate].
    apply IH. eapply sys_next; [exact Hs|]. exact (act_step a s s1 Ea).
Qed.

Lemma booted_reachable : sys_reachable Scenario.booted.
Proof. now apply (sys_attach LittleEndian 0 (fun _ => "170"%byte)). Qed.

(** When the second run has returned, its record is in the ring buffer,
    submitted, behind the busy record of the first run: the consumer is
    handed nothing. *)
Example overtaken_not_visible :
  option_map (fun s => (map rec_busy (records (events_rb (sys_kernel s))),
                        visible (events_rb (sys_kernel s)),
                        List.length (sys_cpus s)))
             (schedule Scenario.overtaking Scenario.booted)
  = Some ([true; false], [], 1%nat).
Proof. vm_compute. reflexivity. Qed.

(** When the first run has returned too, the consumer is handed both
    events, in the order of the reservations. *)
Example caught_up_visible :
  option_map (fun s => (map rec_busy (records (events_rb (sys_kernel s))),
                        Collector.received (sys_kernel s),
                        List.length (sys_cpus s)))
             (schedule (Scenario.overtaking ++ Scenario.catching_up)
                       Scenario.booted)
  = Some ([false; false], [Scenario.event 5; Scenario.event 9], 0%nat).
Proof. vm_compute. reflexivity. Qed.

Lemma interleaved_reachable :
  sys_reachable {| sys_kernel := Scenario.interleaved; sys_cpus := [] |}.
Proof.
  apply (schedule_reachable (Scenario.overtaking ++ Scenario.catching_up)
           Scenario.booted); [exact booted_reachable|].
  vm_compute. reflexivity.
Qed.
(** * The claims *)

(** C1. On every invocation where the reason in the context is greater than
    1 and the reservation succeeds, the probe submits exactly one event: the
    log has one submit, of the reserved slot; the ring buffer has one more
    record, submitted, at that slot; read as a [struct event], its [pid] is
    the high 32 bits of the pid/tgid value of the current task and its
    [reason] is the reason of the context. *)
Theorem trace_tcp_drop_submits_event k f e :
  rb_wf (events_rb k) ->
  firing_valid f ->
  1 < trace_event_raw_kfree_skb.reason (on_ctx f) ->
  fst (kernel_handle _ (bpf_ringbuf_reserve events sizeof_event 0)
         (on_task (by_task f) k)) = Some e ->
  let p := trace_tcp_drop (on_ctx f) in
  let k0 := on_task (by_task f) k in
  result kernel_handle p k0 = 0
  /\ submissions (calls kernel_handle p k0) = [e]
  /\ faulted (final kernel_handle p k0) = faulted k
  /\ exists r,
       records (events_rb (final kernel_handle p k0))
       = records (events_rb k) ++ [r]
       /\ rec_ptr r = e /\ rec_busy r = false /\ rec_discard r = false
       /\ event.pid (event.read (byte_order k) (rec_data r))
          = Z.shiftr (by_task f) 32
       /\ event.reason (event.read (byte_order k) (rec_data r))
          = trace_event_raw_kfree_skb.reason (on_ctx f).
Proof.
  intros Hwf Hf Hr He p k0. subst p k0.
  unfold result, final, calls.
  rewrite run_probe by exact Hwf.
  rewrite reserve_event in He.
  cbn [on_task events_rb byte_order] in *.
  destruct (trace_event_raw_kfree_skb.reason (on_ctx f) <=? 1) eqn:Er;
    [apply Z.leb_le in Er; lia|].
  destruct (full (events_rb k)); [discriminate He|].
  cbn [fst] in He. injection He as <-.
  cbn [fst snd with_rb events_rb faulted push records].
  split; [reflexivity|]. split; [reflexivity|]. split; [reflexivity|].
  eexists. split; [reflexivity|].
  rewrite (probe_event_firing k f Hf).
  cbn [committed rec_busy rec_discard rec_data].
  rewrite (read_image_valid _ _ (event_of_valid f Hf)).
  repeat split; reflexivity.
Qed.

Lemma trace_tcp_drop_submits_event_witness :
  let k := Scenario.boot in
  let f := Scenario.drop 5 in
  (rb_wf (events_rb k) /\ firing_valid f
   /\ 1 < trace_event_raw_kfree_skb.reason (on_ctx f))
  /\ submissions (calls kernel_handle (trace_tcp_drop (on_ctx f))
                    (on_task (by_task f) k)) = [8]
  /\ exists r,
       records (events_rb (fire k f)) = [r]
       /\ event.read LittleEndian (rec_data r) = Scenario.event 5.
Proof.
  intros k f.
  assert (Hwf : rb_wf (events_rb k)) by (split; [cbn; lia | constructor]).
  assert (Hf : firing_valid f) by (split; cbv; split; congruence).
  assert (Hr : 1 < trace_event_raw_kfree_skb.reason (on_ctx f)) by (cbn; lia).
  split; [auto|].
  destruct (trace_tcp_drop_submits_event k f 8 Hwf Hf Hr eq_refl)
    as (_ & Hs & _ & r & Hrec & _ & _ & _ & Hp & Hrs).
  split; [exact Hs|].
  exists r. split; [exact Hrec|].
  destruct (event.read _ _) as [p q]. cbn in Hp, Hrs. subst. reflexivity.
Defined.

(** C2. On every invocation where the reason in the context is at most 1,
    whatever the kernel does, the probe performs no operation at all, leaves
    the kernel as it found it and returns 0.  Consequently, however the
    runs of the probe on several CPUs and the polls of the consumer are
    interleaved, every record that has been submitted to the ring buffer
    holds an event with reason above 1, and so does every event the
    Collector receives. *)
Theorem filtered_reason_emits_nothing :
  (forall (S : Type) (handle : forall X : Type, op X -> S -> X * S)
          (s : S) (ctx : trace_event_raw_kfree_skb.t),
      trace_event_raw_kfree_skb.reason ctx <= 1 ->
      run handle (trace_tcp_drop ctx) s = (0, s, []))
  /\ (forall (k : kernel) (cpus : list cpu),
        sys_reachable {| sys_kernel := k; sys_cpus := cpus |} ->
        Forall (fun r => rec_busy r = false ->
                         1 < event.reason
                               (event.read (byte_order k) (rec_data r)))
               (records (events_rb k))
        /\ Forall (fun e => 1 < event.reason e) (Collector.received k)).
Proof.
  split.
  - intros S handle s ctx Hr. rewrite run_trace_tcp_drop.
    apply Z.leb_le in Hr. now rewrite Hr.
  - intros k cpus Hs. pose proof (sys_reachable_inv _ Hs) as Hinv.
    pose proof (received_sys _ Hinv) as Hrec.
    pose proof (ready_from_probe _ Hinv) as Hready.
    destruct Hinv as (_ & _ & _ & _ & Hdone & _).
    cbn [sys_kernel] in *. rewrite Hrec.
    split.
    + eapply Forall_impl; [|exact Hdone]. cbn beta. intros r Hr Hb.
      now apply from_probe_read, Hr.
    + apply Forall_map. eapply Forall_impl; [|exact Hready].
      intros r Hr. now apply from_probe_read.
Qed.

Lemma filtered_reason_emits_nothing_witness :
  let k := fire_all Scenario.boot (map Scenario.drop Scenario.reasons) in
  run kernel_handle (trace_tcp_drop (on_ctx (Scenario.drop 1))) k = (0, k, [])
  /\ sys_reachable {| sys_kernel := k; sys_cpus := [] |}
  /\ Forall (fun e => 1 < event.reason e) (Collector.received k).
Proof.
  intros k.
  assert (Hk : sys_reachable {| sys_kernel := k; sys_cpus := [] |}).
  { apply reachable_sys. unfold k, Scenario.reasons.
    cbn [map fire_all fold_left].
    repeat (apply reach_fire; [|split; cbv; split; congruence]).
    now apply (reach_attach LittleEndian 0 (fun _ => "170"%byte)). }
  clearbody k.
  split; [|split; [exact Hk|]].
  - apply (proj1 filtered_reason_emits_nothing). cbn. lia.
  - exact (proj2 (proj2 filtered_reason_emits_nothing k [] Hk)).
Defined.

(** C3. On every invocation where the reservation fails, whatever the
    kernel is, the probe returns 0 at once: the failed reservation is the
    only operation it performs, so there is no second attempt, no store and
    no submit, and the kernel is left as the refused reservation left it.
    Against the ring buffer, that is exactly as it was before the probe
    ran: nothing is added to it and nothing is reported. *)
Theorem failed_reservation_drops_silently :
  (forall (S : Type) (handle : forall X : Type, op X -> S -> X * S)
          (s : S) (ctx : trace_event_raw_kfree_skb.t),
      1 < trace_event_raw_kfree_skb.reason ctx ->
      fst (handle _ (bpf_ringbuf_reserve events sizeof_event 0) s) = None ->
      run handle (trace_tcp_drop ctx) s
      = (0,
         snd (handle _ (bpf_ringbuf_reserve events sizeof_event 0) s),
         [reserved events sizeof_event 0 None]))
  /\ (forall (k : kernel) (ctx : trace_event_raw_kfree_skb.t),
        1 < trace_event_raw_kfree_skb.reason ctx ->
        fst (kernel_handle _ (bpf_ringbuf_reserve events sizeof_event 0) k)
        = None ->
        run kernel_handle (trace_tcp_drop ctx) k
        = (0, k, [reserved events sizeof_event 0 None])).
Proof.
  assert (Hany : forall (S : Type) (handle : forall X : Type, op X -> S -> X * S)
                        (s : S) (ctx : trace_event_raw_kfree_skb.t),
             1 < trace_event_raw_kfree_skb.reason ctx ->
             fst (handle _ (bpf_ringbuf_reserve events sizeof_event 0) s) = None ->
             run handle (trace_tcp_drop ctx) s
             = (0,
                snd (handle _ (bpf_ringbuf_reserve events sizeof_event 0) s),
                [reserved events sizeof_event 0 None])).
  { intros S handle s ctx Hr He. rewrite run_trace_tcp_drop.
    destruct (trace_event_raw_kfree_skb.reason ctx <=? 1) eqn:Er;
      [apply Z.leb_le in Er; lia|].
    destruct (handle _ (bpf_ringbuf_reserve events sizeof_event 0) s) as [e s1].
    cbn [fst snd] in *. now rewrite He. }
  split; [exact Hany|].
  intros k ctx Hr He. rewrite (Hany _ kernel_handle k ctx Hr He).
  rewrite reserve_event in *.
  destruct (full (events_rb k)); [reflexivity|discriminate He].
Qed.

Lemma failed_reservation_drops_silently_witness :
  let k := Scenario.saturated in
  let ctx := on_ctx (Scenario.drop 9) in
  (1 < trace_event_raw_kfree_skb.reason ctx
   /\ fst (kernel_handle _ (bpf_ringbuf_reserve events sizeof_event 0) k)
      = None)
  /\ run kernel_handle (trace_tcp_drop ctx) k
     = (0, k, [reserved events sizeof_event 0 None]).
Proof.
  intros k ctx.
  assert (Hr : 1 < trace_event_raw_kfree_skb.reason ctx) by (cbn; lia).
  assert (He : fst (kernel_handle _
                      (bpf_ringbuf_reserve events sizeof_event 0) k) = None)
    by reflexivity.
  split; [split; [exact Hr | exact He]|].
  exact (proj2 failed_reservation_drops_silently k ctx Hr He).
Defined.

(** C4. On every context and against every kernel, in whatever state, the
    probe returns 0: on the filtered path, when the reservation fails and
    when the event is submitted alike. *)
Theorem trace_tcp_drop_returns_zero
    (S : Type) (handle : forall X : Type, op X -> S -> X * S)
    (s : S) (ctx : trace_event_raw_kfree_skb.t) :
  result handle (trace_tcp_drop ctx) s = 0.
Proof.
  unfold result.
  destruct (run_shape handle ctx s) as (s' & [-> | [-> | (e & v & ->)]]);
    reflexivity.
Qed.

(** C5. From a ring buffer with no reservation pending and room for every
    event to be reported, a sequence of firings from one producer adds to
    what the Collector receives exactly the events of the firings whose
    reason is above 1, in the order of the firings.  On the reasons
    0, 2, 5, 1, 9 the Collector receives the events with reasons 2, 5, 9 in
    that order. *)
Theorem collector_receives_in_order k fs :
  rb_wf (events_rb k) ->
  quiescent (events_rb k) ->
  Forall firing_valid fs ->
  room (events_rb k) (Z.of_nat (List.length (filter reported fs))) ->
  Collector.received (fire_all k fs)
  = Collector.received k ++ map event_of (filter reported fs).
Proof.
  intros Hwf Hq Hfs. revert k Hwf Hq.
  induction Hfs as [|f fs Hf _ IH]; intros k Hwf Hq Hroom.
  - cbn. now rewrite app_nil_r.
  - cbn [fire_all fold_left]. change (fold_left fire fs (fire k f))
      with (fire_all (fire k f) fs).
    pose proof (events_rb_fire k f Hwf Hf) as Hrb.
    pose proof (byte_order_fire k f) as Hbo.
    pose proof (rb_wf_fire k f Hwf) as Hwf'.
    cbn [filter] in Hroom |- *.
    destruct (reported f) eqn:Erep; cbn [andb] in Hrb.
    + cbn [List.length map] in Hroom |- *.
      rewrite (room_not_full _ (Z.of_nat (S (List.length (filter reported fs))))
                 Hwf) in Hrb by (lia || exact Hroom).
      cbn [negb] in Hrb.
      assert (Hq' : quiescent (events_rb (fire k f)))
        by (rewrite Hrb; now apply quiescent_push).
      rewrite IH; [ | exact Hwf' | exact Hq' | ].
      * rewrite (received_quiescent _ Hq'), (received_quiescent _ Hq).
        rewrite Hrb, Hbo. cbn [push records].
        rewrite samples_app, decode_all_app, samples_committed.
        cbn [Collector.decode_all].
        rewrite (decode_image _ _ (event_of_valid f Hf)).
        now rewrite <- app_assoc.
      * rewrite Hrb. unfold room in *. cbn [push producer_pos consumer_pos rb_size].
        lia.
    + assert (Hq' : quiescent (events_rb (fire k f))) by now rewrite Hrb.
      rewrite IH; [ | exact Hwf' | exact Hq' | now rewrite Hrb ].
      rewrite (received_quiescent _ Hq'), (received_quiescent _ Hq).
      now rewrite Hrb, Hbo.
Qed.

Lemma collector_receives_in_order_witness :
  let k := Scenario.boot in
  let fs := map Scenario.drop [0; 2; 5; 1; 9] in
  (rb_wf (events_rb k) /\ quiescent (events_rb k) /\ Forall firing_valid fs
   /\ room (events_rb k) (Z.of_nat (List.length (filter reported fs))))
  /\ Collector.received (fire_all k fs)
     = [Scenario.event 2; Scenario.event 5; Scenario.event 9].
Proof.
  intros k fs.
  assert (Hwf : rb_wf (events_rb k)) by (split; [cbn; lia | constructor]).
  assert (Hq : quiescent (events_rb k)) by constructor.
  assert (Hfs : Forall firing_valid fs)
    by (repeat constructor; cbv; congruence).
  assert (Hroom : room (events_rb k)
                    (Z.of_nat (List.length (filter reported fs))))
    by (cbv; congruence).
  split; [auto|].
  rewrite (collector_receives_in_order k fs Hwf Hq Hfs Hroom).
  reflexivity.
Defined.

(** C6. [struct event] is laid out as two consecutive unsigned 32-bit
    integers, [pid] at offset 0 and [reason] at offset 4, without padding,
    8 bytes in all: assigning both members overwrites every byte of a slot
    with the four bytes of [pid] followed by the four bytes of [reason],
    each in the byte order of the machine, and what is read back are the
    two values as unsigned 32-bit integers. *)
Theorem event_layout (bo : endianness) (e : event.t)
    (b0 b1 b2 b3 b4 b5 b6 b7 : byte) :
  place 0 event.members = [(Member "pid" U32, 0); (Member "reason" U32, 4)]
  /\ sizeof U32 * 8 = 32
  /\ sizeof_event = 8
  /\ struct_padding event.members = 0
  /\ event.assign bo e [b0; b1; b2; b3; b4; b5; b6; b7]
     = int_bytes bo 4 (event.pid e) ++ int_bytes bo 4 (event.reason e)
  /\ List.length (event.image bo e) = 8%nat
  /\ event.read bo (event.image bo e)
     = {| event.pid := u32 (event.pid e);
          event.reason := u32 (event.reason e) |}.
Proof.
  repeat split; try reflexivity.
  - now apply assign_slot.
  - apply length_image.
  - apply read_image.
Qed.

(** C7. Decoding the encoding of a valid event gives the event back, and
    decoding fails with [MalformedRecord] on every input whose length is
    not 8 bytes. *)
Theorem codec_round_trip :
  (forall (bo : endianness) (e : event.t),
      event.valid e -> Codec.decode bo (Codec.encode bo e) = Codec.Event e)
  /\ (forall (bo : endianness) (bs : list byte),
        List.length bs <> 8%nat ->
        Codec.decode bo bs = Codec.Error Codec.MalformedRecord).
Proof.
  split.
  - intros bo e He. rewrite encode_image. now apply decode_image.
  - intros bo bs Hlen. unfold Codec.decode.
    destruct (Nat.eqb_spec (List.length bs) 8); [contradiction|reflexivity].
Qed.

Lemma codec_round_trip_witness :
  let e := {| event.pid := 4242; event.reason := 9 |} in
  let bs := ["001"; "002"; "003"; "004"; "005"; "006"; "007"]%byte in
  (event.valid e /\ List.length bs <> 8%nat)
  /\ Codec.decode BigEndian (Codec.encode BigEndian e) = Codec.Event e
  /\ Codec.decode LittleEndian bs = Codec.Error Codec.MalformedRecord.
Proof.
  intros e bs.
  assert (He : event.valid e) by (split; cbv; split; congruence).
  assert (Hbs : List.length bs <> 8%nat) by (cbn; lia).
  split; [auto|]. split.
  - exact (proj1 codec_round_trip BigEndian e He).
  - exact (proj2 codec_round_trip LittleEndian bs Hbs).
Defined.

(** C8. The capacity the map definition of [events] declares is 65536
    bytes, which is a power of two, [2 ^ 16]; the kernel accepts it and
    creates a ring buffer of that size. *)
Theorem events_capacity :
  map_type events = BPF_MAP_TYPE_RINGBUF
  /\ max_entries events = 65536
  /\ max_entries events = 2 ^ 16
  /\ is_power_of_2 (max_entries events) = true
  /\ option_map rb_size (ringbuf_map_alloc events) = Some 65536.
Proof. repeat split. Qed.

(** C9. In every invocation, whatever the kernel does, the slots the probe
    submits are exactly the slots it was given by a successful reservation:
    at most one, submitted once, by the last operation before the return,
    and never discarded.  Against the ring buffer, a run leaves the pending
    reservations as it found them, and at every point of the run the
    consumer is handed what it was handed before, or that and the finished
    event.  However runs on several CPUs and polls are interleaved, what
    the consumer is handed are whole events that were submitted, never a
    record that is reserved and not submitted, and once every run has
    returned no reservation is pending. *)
Theorem reservation_submitted_once :
  (forall (S : Type) (handle : forall X : Type, op X -> S -> X * S)
          (s : S) (ctx : trace_event_raw_kfree_skb.t),
      let log := calls handle (trace_tcp_drop ctx) s in
      submissions log = reservations log
      /\ discards log = []
      /\ (List.length (reservations log) <= 1)%nat
      /\ forall e, In e (reservations log) ->
                   exists before,
                     log = before ++ [submitted e 0]
                     /\ submissions before = [] /\ discards before = [])
  /\ (forall (k : kernel) (ctx : trace_event_raw_kfree_skb.t),
        rb_wf (events_rb k) ->
        let p := trace_tcp_drop ctx in
        filter rec_busy (records (events_rb (final kernel_handle p k)))
        = filter rec_busy (records (events_rb k))
        /\ Forall (fun ki =>
                     visible (events_rb ki) = visible (events_rb k)
                     \/ visible (events_rb ki)
                        = visible (events_rb k)
                          ++ [event.image (byte_order k) (probe_event k ctx)])
                  (states kernel_handle p k))
  /\ (forall (k : kernel) (cpus : list cpu),
        sys_reachable {| sys_kernel := k; sys_cpus := cpus |} ->
        Forall (fun bs => exists r,
                            In r (records (events_rb k))
                            /\ rec_busy r = false /\ rec_discard r = false
                            /\ bs = rec_data r
                            /\ exists e, event.valid e
                                         /\ bs = event.image (byte_order k) e)
               (visible (events_rb k))
        /\ (cpus = [] -> quiescent (events_rb k))).
Proof.
  split; [exact calls_balanced|]. split.
  - intros k ctx Hwf p. subst p.
    assert (Hfinal :
      events_rb (final kernel_handle (trace_tcp_drop ctx) k) = events_rb k
      \/ events_rb (final kernel_handle (trace_tcp_drop ctx) k)
         = push (events_rb k)
             (committed (producer_pos (events_rb k))
                (event.image (byte_order k) (probe_event k ctx)))).
    { unfold final. rewrite run_probe by exact Hwf.
      destruct (trace_event_raw_kfree_skb.reason ctx <=? 1); [now left|].
      destruct (full (events_rb k)); [now left | now right]. }
    split.
    + destruct Hfinal as [-> | ->]; [reflexivity|].
      unfold push. cbn [records]. rewrite filter_app. cbn. apply app_nil_r.
    + eapply Forall_impl; [|exact (states_probe k ctx Hwf)].
      intros ki [Hki | [[d Hki] | ->]].
      * left. now rewrite Hki.
      * left. rewrite Hki. apply visible_reserving.
      * destruct Hfinal as [-> | ->]; [now left|]. apply visible_committed.
  - intros k cpus Hs. pose proof (sys_reachable_inv _ Hs) as Hinv.
    split; [|exact (idle_quiescent _ Hinv)].
    pose proof (visible_sys _ Hinv) as Hvis.
    pose proof (ready_from_probe _ Hinv) as Hready.
    cbn [sys_kernel] in *. rewrite Hvis. apply Forall_map.
    rewrite Forall_forall in *. intros r Hr.
    destruct (Hready r Hr) as (Hb & Hd & e & He & _ & Hdata).
    exists r. split; [now apply ready_in|].
    repeat (split; [assumption || reflexivity|]). now exists e.
Qed.

Lemma reservation_submitted_once_witness :
  let k := on_task (by_task (Scenario.drop 5)) Scenario.boot in
  let ctx := on_ctx (Scenario.drop 5) in
  (rb_wf (events_rb k)
   /\ sys_reachable {| sys_kernel := Scenario.interleaved; sys_cpus := [] |})
  /\ filter rec_busy
       (records (events_rb (final kernel_handle (trace_tcp_drop ctx) k)))
     = []
  /\ Forall (fun ki =>
               visible (events_rb ki) = []
               \/ visible (events_rb ki)
                  = [event.image LittleEndian (Scenario.event 5)])
            (states kernel_handle (trace_tcp_drop ctx) k)
  /\ quiescent (events_rb Scenario.interleaved).
Proof.
  intros k ctx.
  assert (Hwf : rb_wf (events_rb k)) by (split; [cbn; lia | constructor]).
  pose proof interleaved_reachable as Hs.
  split; [split; [exact Hwf | exact Hs]|].
  destruct (proj1 (proj2 reservation_submitted_once) k ctx Hwf) as [Hb Hv].
  split; [exact Hb|]. split; [exact Hv|].
  exact (proj2 (proj2 (proj2 reservation_submitted_once) _ _ Hs) eq_refl).
Defined.

(** C10. The size of [struct event] is 8 and, whatever the kernel does,
    every reservation the probe asks for is of that size.  Consequently,
    however the runs of the probe on several CPUs and the polls of the
    consumer are interleaved, every record of the ring buffer is 8 bytes
    long; the decoder never answers [MalformedRecord] on what the consumer
    is handed, and the Collector skips none of it. *)
Theorem records_have_event_size :
  sizeof_event = 8
  /\ (forall (S : Type) (handle : forall X : Type, op X -> S -> X * S)
             (s : S) (ctx : trace_event_raw_kfree_skb.t),
         Forall (fun size => size = sizeof_event)
                (attempts (calls handle (trace_tcp_drop ctx) s)))
  /\ (forall (k : kernel) (cpus : list cpu),
        sys_reachable {| sys_kernel := k; sys_cpus := cpus |} ->
        Forall (fun r => rec_len r = sizeof_event) (records (events_rb k))
        /\ Forall (fun bs => List.length bs = 8%nat
                             /\ Codec.decode (byte_order k) bs
                                <> Codec.Error Codec.MalformedRecord)
                  (visible (events_rb k))
        /\ List.length (Collector.received k)
           = List.length (visible (events_rb k))).
Proof.
  split; [reflexivity|]. split.
  - intros S handle s ctx. unfold calls.
    destruct (run_shape handle ctx s) as (s' & [-> | [-> | (e & v & ->)]]);
      now repeat constructor.
  - intros k cpus Hs. pose proof (sys_reachable_inv _ Hs) as Hinv.
    pose proof (received_sys _ Hinv) as Hrec.
    pose proof (visible_sys _ Hinv) as Hvis.
    pose proof (ready_from_probe _ Hinv) as Hready.
    destruct Hinv as (_ & _ & _ & Hlen & _).
    cbn [sys_kernel] in *. rewrite Hrec, Hvis, !length_map.
    split; [exact Hlen|]. split; [|reflexivity].
    apply Forall_map. eapply Forall_impl; [|exact Hready]. intros r Hr.
    pose proof (from_probe_read _ _ Hr) as (_ & Hd & Hl).
    split.
    + unfold rec_len in Hl. rewrite sizeof_event_8 in Hl. lia.
    + rewrite Hd. discriminate.
Qed.

Lemma records_have_event_size_witness :
  let k := fire_all Scenario.boot (map Scenario.drop [7; 0; 3]) in
  sys_reachable {| sys_kernel := k; sys_cpus := [] |}
  /\ map rec_len (records (events_rb k)) = [8; 8]
  /\ Forall (fun bs => List.length bs = 8%nat
                       /\ Codec.decode (byte_order k) bs
                          <> Codec.Error Codec.MalformedRecord)
            (visible (events_rb k)).
Proof.
  intros k.
  assert (Hk : sys_reachable {| sys_kernel := k; sys_cpus := [] |}).
  { apply reachable_sys. unfold k. cbn [map fire_all fold_left].
    repeat (apply reach_fire; [|split; cbv; split; congruence]).
    now apply (reach_attach LittleEndian 0 (fun _ => "170"%byte)). }
  split; [exact Hk|].
  destruct (proj2 (proj2 records_have_event_size) k [] Hk) as (Hlen & Hdec & _).
  split; [reflexivity | exact Hdec].
Defined.

(** * Further properties of the probe *)

(** ** Its operations, whatever the kernel *)



(** ** Its effect on the kernel *)

(** X2. A run of the probe on a well-formed ring buffer changes nothing of
    the kernel but the ring buffer, and of the ring buffer neither the size
    nor the consumer position nor any record that was there: it adds at
    most one record, submitted, 8 bytes long, for which the producer
    position advances by 16, and it never leaves a fault. *)
Theorem probe_only_appends k f :
  rb_wf (events_rb k) ->
  let k' := fire k f in
  byte_order k' = byte_order k
  /\ fresh k' = fresh k
  /\ faulted k' = faulted k
  /\ rb_size (events_rb k') = rb_size (events_rb k)
  /\ consumer_pos (events_rb k') = consumer_pos (events_rb k)
  /\ rb_wf (events_rb k')
  /\ exists new,
       records (events_rb k') = records (events_rb k) ++ new
       /\ (List.length new <= 1)%nat
       /\ producer_pos (events_rb k')
          = producer_pos (events_rb k) + event_span * Z.of_nat (List.length new)
       /\ Forall (fun r => rec_busy r = false /\ rec_discard r = false
                           /\ rec_pos r = producer_pos (events_rb k)
                           /\ rec_len r = sizeof_event) new.
Proof.
  intros Hwf k'. pose proof (rb_wf_fire k f Hwf) as Hwf'.
  subst k'. rewrite fire_eq in * by exact Hwf. cbv zeta in *.
  destruct (trace_event_raw_kfree_skb.reason (on_ctx f) <=? 1);
    [|destruct (full (events_rb k))];
    cbn [on_task with_rb push byte_order fresh faulted events_rb rb_size
         consumer_pos producer_pos records];
    repeat (split; [reflexivity || exact Hwf'|]).
  - exists []. rewrite app_nil_r. repeat split; [cbn; lia | cbn; lia | constructor].
  - exists []. rewrite app_nil_r. repeat split; [cbn; lia | cbn; lia | constructor].
  - eexists [_]. split; [reflexivity|]. split; [cbn; lia|].
    split; [cbn [List.length]; lia|].
    constructor; [|constructor]. repeat split.
    unfold rec_len, committed. cbn [rec_data]. now rewrite length_image.
Qed.

Lemma probe_only_appends_witness :
  let k := fire Scenario.boot (Scenario.drop 7) in
  rb_wf (events_rb k)
  /\ exists new,
       records (events_rb (fire k (Scenario.drop 3)))
       = records (events_rb k) ++ new
       /\ (List.length new <= 1)%nat.
Proof.
  intros k.
  assert (Hwf : rb_wf (events_rb k))
    by (apply rb_wf_fire; split; [cbn; lia | constructor]).
  split; [exact Hwf|].
  destruct (probe_only_appends k (Scenario.drop 3) Hwf)
    as (_ & _ & _ & _ & _ & _ & new & Hnew & Hlen & _).
  exists new. split; assumption.
Defined.

(** X3. What a run of the probe leaves in the ring buffer, and what it asks
    of the kernel, does not depend on what the memory of the slot held
    before: both members are stored before the submit, so the consumer is
    never handed bytes of an earlier record. *)
Theorem submitted_bytes_ignore_stale_memory k f mem :
  rb_wf (events_rb k) ->
  events_rb (fire (with_fresh mem k) f) = events_rb (fire k f)
  /\ calls kernel_handle (trace_tcp_drop (on_ctx f))
           (on_task (by_task f) (with_fresh mem k))
     = calls kernel_handle (trace_tcp_drop (on_ctx f))
             (on_task (by_task f) k)
  /\ Collector.received (fire (with_fresh mem k) f)
     = Collector.received (fire k f).
Proof.
  intros Hwf.
  assert (Hrb : events_rb (fire (with_fresh mem k) f) = events_rb (fire k f)).
  { rewrite !fire_eq by exact Hwf. cbv zeta.
    cbn [with_fresh events_rb byte_order].
    destruct (trace_event_raw_kfree_skb.reason (on_ctx f) <=? 1); [reflexivity|].
    destruct (full (events_rb k)); reflexivity. }
  split; [exact Hrb|]. split.
  - unfold calls. rewrite !run_probe by exact Hwf.
    cbn [with_fresh on_task events_rb byte_order current_pid_tgid].
    destruct (trace_event_raw_kfree_skb.reason (on_ctx f) <=? 1); [reflexivity|].
    destruct (full (events_rb k)); reflexivity.
  - unfold Collector.received, Collector.poll.
    rewrite Hrb, !byte_order_fire. cbn [with_fresh byte_order].
    now destruct (ringbuf_consume (events_rb (fire k f))).
Qed.

Lemma submitted_bytes_ignore_stale_memory_witness :
  let k := Scenario.boot in
  let f := Scenario.drop 5 in
  rb_wf (events_rb k)
  /\ visible (events_rb (fire (with_fresh (fun _ => "255"%byte) k) f))
     = visible (events_rb (fire k f)).
Proof.
  intros k f.
  assert (Hwf : rb_wf (events_rb k)) by (split; [cbn; lia | constructor]).
  split; [exact Hwf|].
  now rewrite (proj1 (submitted_bytes_ignore_stale_memory k f
                        (fun _ => "255"%byte) Hwf)).
Defined.

(** ** The task it reports *)

Lemma pid_tgid_of_sum tgid pid :
  0 <= tgid -> is_u32 pid -> pid_tgid_of tgid pid = tgid * 2 ^ 32 + pid.
Proof.
  intros Ht [Hp0 Hp1]. unfold pid_tgid_of.
  rewrite <- Z.lxor_lor, <- Z.add_nocarry_lxor, Z.shiftl_mul_pow2;
    try lia; try reflexivity.
  all: apply Z.bits_inj'; intros n Hn;
    rewrite Z.land_spec, Z.bits_0;
    destruct (Z.ltb_spec n 32) as [Hlt | Hge];
    [ now rewrite Z.shiftl_spec_low
    | rewrite (Z.bits_above_log2 pid n), andb_false_r; [reflexivity | lia |];
      destruct (Z.eq_dec pid 0) as [-> | Hne]; [cbn; lia|];
      apply Z.lt_le_trans with 32; [|exact Hge];
      apply Z.log2_lt_pow2; lia ].
Qed.

Lemma pid_tgid_of_range tgid pid :
  is_u32 tgid -> is_u32 pid ->
  is_u64 (pid_tgid_of tgid pid) /\ Z.shiftr (pid_tgid_of tgid pid) 32 = tgid.
Proof.
  intros Ht Hp. rewrite (pid_tgid_of_sum _ _ (proj1 Ht) Hp).
  destruct Ht as [Ht0 Ht1], Hp as [Hp0 Hp1]. split.
  - unfold is_u64. change (2 ^ 64) with (2 ^ 32 * 2 ^ 32). nia.
  - rewrite Z.shiftr_div_pow2 by lia.
    rewrite Z.div_add_l by lia. rewrite (Z.div_small pid) by lia. lia.
Qed.

(** X4. The [pid] of a reported event is the thread group id of the task in
    whose context the tracepoint fired, the process id as user space knows
    it; the thread id, the low half of the value the helper answers, is
    shifted out, so all threads of a process report the same [pid]. *)
Theorem pid_is_thread_group_id k ctx tgid pid :
  rb_wf (events_rb k) ->
  trace_event_raw_kfree_skb.valid ctx ->
  is_u32 tgid -> is_u32 pid ->
  1 < trace_event_raw_kfree_skb.reason ctx ->
  full (events_rb k) = false ->
  records (events_rb
             (fire k {| on_ctx := ctx; by_task := pid_tgid_of tgid pid |}))
  = records (events_rb k)
    ++ [committed (producer_pos (events_rb k))
          (event.image (byte_order k)
             {| event.pid := tgid;
                event.reason := trace_event_raw_kfree_skb.reason ctx |})].
Proof.
  intros Hwf Hctx Ht Hp Hr Hfull.
  destruct (pid_tgid_of_range tgid pid Ht Hp) as [H64 Hshift].
  rewrite events_rb_fire; [|exact Hwf|split; assumption].
  unfold reported. cbn [on_ctx].
  destruct (Z.leb_spec (trace_event_raw_kfree_skb.reason ctx) 1); [lia|].
  rewrite Hfull. cbn [negb andb push records].
  unfold event_of. cbn [on_ctx by_task]. now rewrite Hshift.
Qed.

Lemma pid_is_thread_group_id_witness :
  let k := Scenario.boot in
  let ctx := on_ctx (Scenario.drop 5) in
  (rb_wf (events_rb k) /\ trace_event_raw_kfree_skb.valid ctx
   /\ is_u32 4242 /\ is_u32 1 /\ is_u32 2
   /\ 1 < trace_event_raw_kfree_skb.reason ctx
   /\ full (events_rb k) = false)
  /\ records (events_rb
                (fire k {| on_ctx := ctx; by_task := pid_tgid_of 4242 1 |}))
     = records (events_rb
                  (fire k {| on_ctx := ctx; by_task := pid_tgid_of 4242 2 |})).
Proof.
  intros k ctx.
  assert (Hwf : rb_wf (events_rb k)) by (split; [cbn; lia | constructor]).
  assert (Hctx : trace_event_raw_kfree_skb.valid ctx) by (cbv; split; congruence).
  assert (Ht : is_u32 4242) by (cbv; split; congruence).
  assert (H1 : is_u32 1) by (cbv; split; congruence).
  assert (H2 : is_u32 2) by (cbv; split; congruence).
  assert (Hr : 1 < trace_event_raw_kfree_skb.reason ctx) by (cbn; lia).
  assert (Hfull : full (events_rb k) = false) by reflexivity.
  split;
    [exact (conj Hwf (conj Hctx (conj Ht (conj H1 (conj H2 (conj Hr Hfull))))))|].
  rewrite (pid_is_thread_group_id k ctx 4242 1 Hwf Hctx Ht H1 Hr Hfull).
  rewrite (pid_is_thread_group_id k ctx 4242 2 Hwf Hctx Ht H2 Hr Hfull).
  reflexivity.
Defined.

(** ** The capacity of the channel *)

Lemma full_free rb : rb_wf rb -> full rb = (free_events rb <? 1).
Proof.
  intros [Hc _]. unfold full, free_events. rewrite event_span_16.
  set (x := rb_size rb - 1 - (producer_pos rb - consumer_pos rb)).
  destruct (Z.ltb_spec (x / 16) 1) as [Hlt | Hge].
  - assert (x < 16).
    { destruct (Z.lt_ge_cases x 16) as [|H16]; [assumption|].
      apply (Z.div_le_mono _ _ 16) in H16; [|lia].
      change (16 / 16) with 1 in H16. lia. }
    apply orb_true_iff. right. apply Z.ltb_lt. unfold x in *. lia.
  - assert (16 <= x).
    { destruct (Z.lt_ge_cases x 16) as [H16|]; [|assumption].
      assert (x / 16 <= 0); [|lia].
      destruct (Z.lt_ge_cases x 0) as [Hneg | Hpos].
      - apply Z.lt_le_incl, Z.div_lt_upper_bound; lia.
      - rewrite Z.div_small; lia. }
    apply orb_false_iff. split; apply Z.ltb_ge; unfold x in *; lia.
Qed.

Lemma free_events_push rb r : free_events (push rb r) = free_events rb - 1.
Proof.
  unfold free_events, push. cbn [rb_size producer_pos consumer_pos].
  rewrite event_span_16.
  replace (rb_size rb - 1 - (producer_pos rb + 16 - consumer_pos rb))
    with (rb_size rb - 1 - (producer_pos rb - consumer_pos rb) + (-1) * 16)
    by lia.
  rewrite Z.div_add by lia. lia.
Qed.

(** X5. With no reservation pending and no poll in between, of a sequence
    of firings the Collector receives the events with reason above 1 in
    order until the ring buffer is full, as many as [free_events] counts,
    and none of the later ones, whose reservations are refused; what was
    submitted before is kept.  A ring buffer that has just been created
    for the map [events] takes 4095 events. *)
Theorem drops_beyond_capacity_are_lost :
  (forall (k : kernel) (fs : list firing),
      rb_wf (events_rb k) ->
      quiescent (events_rb k) ->
      Forall firing_valid fs ->
      Collector.received (fire_all k fs)
      = Collector.received k
        ++ map event_of
             (firstn (Z.to_nat (free_events (events_rb k)))
                     (filter reported fs)))
  /\ (forall bo task mem k,
        attach bo task mem = Some k -> free_events (events_rb k) = 4095).
Proof.
  split; [|intros bo task mem k [= <-]; reflexivity].
  intros k fs Hwf Hq Hfs. revert k Hwf Hq.
  induction Hfs as [|f fs Hf _ IH]; intros k Hwf Hq.
  - cbn [filter fire_all fold_left]. rewrite firstn_nil. cbn.
    now rewrite app_nil_r.
  - cbn [fire_all fold_left]. change (fold_left fire fs (fire k f))
      with (fire_all (fire k f) fs).
    pose proof (events_rb_fire k f Hwf Hf) as Hrb.
    pose proof (byte_order_fire k f) as Hbo.
    pose proof (rb_wf_fire k f Hwf) as Hwf'.
    rewrite (full_free _ Hwf) in Hrb.
    cbn [filter].
    destruct (reported f) eqn:Erep; cbn [andb] in Hrb;
      [destruct (Z.ltb_spec (free_events (events_rb k)) 1) as [Hfull | Hroom];
       cbn [negb] in Hrb|].
    + (* refused *)
      assert (Hq' : quiescent (events_rb (fire k f))) by now rewrite Hrb.
      rewrite IH by assumption.
      rewrite (received_quiescent _ Hq'), (received_quiescent _ Hq).
      rewrite Hrb, Hbo.
      replace (Z.to_nat (free_events (events_rb k))) with 0%nat by lia.
      reflexivity.
    + (* submitted *)
      assert (Hq' : quiescent (events_rb (fire k f)))
        by (rewrite Hrb; now apply quiescent_push).
      rewrite IH by assumption.
      rewrite (received_quiescent _ Hq'), (received_quiescent _ Hq).
      rewrite Hrb, Hbo, free_events_push. cbn [push records].
      rewrite samples_app, decode_all_app, samples_committed.
      cbn [Collector.decode_all].
      rewrite (decode_image _ _ (event_of_valid f Hf)).
      replace (Z.to_nat (free_events (events_rb k)))
        with (S (Z.to_nat (free_events (events_rb k) - 1))) by lia.
      cbn [firstn map]. now rewrite <- app_assoc.
    + (* filtered *)
      assert (Hq' : quiescent (events_rb (fire k f))) by now rewrite Hrb.
      rewrite IH by assumption.
      rewrite (received_quiescent _ Hq'), (received_quiescent _ Hq).
      now rewrite Hrb, Hbo.
Qed.

Lemma reachable_quiescent k :
  reachable k -> rb_wf (events_rb k) /\ quiescent (events_rb k).
Proof.
  intros Hreach. apply reachable_sys, sys_reachable_inv in Hreach. split.
  - exact (proj1 Hreach).
  - exact (idle_quiescent _ Hreach eq_refl).
Qed.

Lemma saturated_well_formed :
  rb_wf (events_rb Scenario.saturated)
  /\ quiescent (events_rb Scenario.saturated).
Proof.
  destruct saturated_by_firing as (Hreach & Hrb & _).
  apply reachable_quiescent in Hreach. rewrite Hrb in Hreach. exact Hreach.
Qed.

Lemma drops_beyond_capacity_are_lost_witness :
  let k := Scenario.saturated in
  let fs := [Scenario.drop 9; Scenario.drop 0; Scenario.drop 3] in
  (rb_wf (events_rb k) /\ quiescent (events_rb k) /\ Forall firing_valid fs)
  /\ Collector.received (fire_all k fs) = Collector.received k.
Proof.
  intros k fs.
  destruct saturated_well_formed as [Hwf Hq].
  assert (Hfs : Forall firing_valid fs)
    by (repeat constructor; cbv; congruence).
  assert (Hfree : Z.to_nat (free_events (events_rb k)) = 0%nat)
    by (vm_compute; reflexivity).
  split; [exact (conj Hwf (conj Hq Hfs))|].
  rewrite (proj1 drops_beyond_capacity_are_lost k fs Hwf Hq Hfs), Hfree.
  cbn [firstn map]. apply app_nil_r.
Defined.

(** ** Runs on several CPUs *)

Lemma about_to_submit_reachable :
  sys_reachable {| sys_kernel := about_to_submit; sys_cpus := [submitting] |}.
Proof.
  apply (schedule_reachable (Scenario.overtaking ++ filling) Scenario.booted);
    [exact booted_reachable|].
  vm_compute. reflexivity.
Qed.

Lemma busy_ptrs_nodup rs :
  StronglySorted rec_before rs -> NoDup (map rec_ptr (filter rec_busy rs)).
Proof.
  induction 1 as [|r rs _ IH Hr]; [constructor|]. cbn [filter].
  destruct (rec_busy r); [|exact IH]. cbn [map]. constructor; [|exact IH].
  intros Hin. apply in_map_iff in Hin as (r' & Hptr & Hin).
  apply filter_In in Hin as [Hin _].
  rewrite Forall_forall in Hr. apply Hr, rec_before_ptr in Hin. lia.
Qed.

Lemma slots_length phs : (List.length (flat_map slot_of phs) <= List.length phs)%nat.
Proof.
  induction phs as [|ph phs IH]; [constructor|].
  cbn [flat_map]. rewrite length_app. cbn [List.length].
  destruct ph; cbn [slot_of List.length]; lia.
Qed.

(** X6. However the runs of the probe on several CPUs and the polls of the
    consumer are interleaved: no store and no submit of the probe ever
    misses a slot its run holds; the records of the ring buffer follow one
    another without overlap and end before the producer position; and
    there are never more reservations pending than runs under way, each
    run holding at most one. *)
Theorem runs_never_fault_nor_leak (k : kernel) (cpus : list cpu) :
  sys_reachable {| sys_kernel := k; sys_cpus := cpus |} ->
  faulted k = false
  /\ StronglySorted rec_before (records (events_rb k))
  /\ Forall (fun r => rec_ptr r + rec_len r <= producer_pos (events_rb k))
            (records (events_rb k))
  /\ (List.length (filter rec_busy (records (events_rb k)))
      <= List.length cpus)%nat.
Proof.
  intros Hs. apply sys_reachable_inv in Hs.
  destruct Hs as (Hwf & Hsort & Hfl & _ & _ & phs & Hphs & Hnd & Hown).
  cbn [sys_kernel sys_cpus] in *.
  refine (conj Hfl (conj Hsort (conj (proj2 Hwf) _))).
  rewrite (Forall2_length Hphs).
  etransitivity; [|apply slots_length].
  rewrite <- (length_map rec_ptr).
  apply NoDup_incl_length; [now apply busy_ptrs_nodup|].
  intros e He. apply in_map_iff in He as (r & <- & Hr).
  apply filter_In in Hr as [Hin Hb].
  rewrite Forall_forall in Hown. now apply Hown.
Qed.

Lemma runs_never_fault_nor_leak_witness :
  let k := about_to_submit in
  sys_reachable {| sys_kernel := k; sys_cpus := [submitting] |}
  /\ faulted k = false
  /\ map rec_busy (records (events_rb k)) = [true; false]
  /\ (List.length (filter rec_busy (records (events_rb k))) <= 1)%nat.
Proof.
  intros k.
  split; [exact about_to_submit_reachable|].
  pose proof (runs_never_fault_nor_leak k [submitting]
                about_to_submit_reachable) as (Hfl & _ & _ & Hn).
  split; [exact Hfl|]. split; [reflexivity | exact Hn].
Defined.


Section UpdateOfBusy.

Variables (e : ptr) (f : rb_record -> rb_record) (rs : list rb_record).
Hypothesis busy_at_e :
  forall r, In r rs -> rec_ptr r = e -> rec_busy r = true.


End UpdateOfBusy.




